(** * Desugaring of column expressions (pathway/internals/desugaring.py)

    A shallow embedding of the expression rewriters of
    [pathway.internals.desugaring] and of the call wrapper [desugar],
    together with the properties the specification states about them. *)

From stdpp Require Import gmap strings list pretty.

Set Default Proof Using "Type".
#[local] Set Warnings "-register-all".

(** ** Data model *)

(** A relation handle is an opaque identity; Python compares it with [is]. *)
Definition Relation := nat.

(** A scope token names a symbolic self-reference ([thisclass.ThisMetaclass]). *)
Definition Token := string.

(** The owner of a column: [table.Joinable | thisclass.ThisMetaclass]. *)
Inductive TableRef :=
| Joinable (r : Relation)
| This (t : Token).

Global Instance TableRef_eq_dec : EqDecision TableRef.
Proof. solve_decision. Defined.

(** Python values that may sit in a [ColumnConstExpression]; [PyObject] is
    any other object, known by its identity. *)
Inductive Literal :=
| PyNone
| PyBool (b : bool)
| PyInt (z : Z)
| PyStr (s : string)
| PyObject (o : nat).

Global Instance Literal_eq_dec : EqDecision Literal.
Proof. solve_decision. Defined.

(** [expr.ColumnReference]: a named column owned by a relation. *)
Record ColumnRef := mkColumnRef { _table : TableRef; _name : string }.

Global Instance ColumnRef_eq_dec : EqDecision ColumnRef.
Proof. solve_decision. Defined.

(** Opaque payloads of reducer and method-call nodes. *)
Definition Reducer := nat.
Definition FunMapping := nat.
Definition ReturnTypeFn := nat.

(** [expr.ColumnExpression], the variants of the specification's data
    model.  The base of an indexed lookup is a column reference: the
    rewriters hand it to [eval_column_val]. *)
Inductive ColumnExpression :=
| ColumnReference (ref : ColumnRef)
| ColumnConstExpression (val : Literal)
| ColumnIxExpression (column_expression : ColumnRef)
    (keys_expression : ColumnExpression) (optional : bool)
| RequireExpression (val : ColumnExpression) (args : list ColumnExpression)
| ReducerExpression (reducer : Reducer) (args : list ColumnExpression)
| MethodCallExpression (fun_mapping : FunMapping) (return_type : ReturnTypeFn)
    (name : string) (args : list ColumnExpression)
| ColumnCallExpression (col_expr : ColumnExpression) (args : list ColumnExpression)
| PointerExpression (table : TableRef) (args : list ColumnExpression)
    (optional : bool).

(** Induction over expressions with the argument lists covered by [Forall]. *)
Section ColumnExpression_rect.
Variable P : ColumnExpression → Prop.
Hypothesis Href : ∀ c, P (ColumnReference c).
Hypothesis Hconst : ∀ v, P (ColumnConstExpression v).
Hypothesis Hix : ∀ c k o, P k → P (ColumnIxExpression c k o).
Hypothesis Hrequire : ∀ v args, P v → Forall P args → P (RequireExpression v args).
Hypothesis Hreducer : ∀ r args, Forall P args → P (ReducerExpression r args).
Hypothesis Hmethod : ∀ f t n args, Forall P args → P (MethodCallExpression f t n args).
Hypothesis Hcall : ∀ c args, P c → Forall P args → P (ColumnCallExpression c args).
Hypothesis Hpointer : ∀ t args o, Forall P args → P (PointerExpression t args o).

Fixpoint ColumnExpression_ind' (e : ColumnExpression) : P e :=
  let all := fix all (l : list ColumnExpression) : Forall P l :=
    match l with
    | [] => List.Forall_nil P
    | x :: l' => List.Forall_cons P x l' (ColumnExpression_ind' x) (all l')
    end in
  match e with
  | ColumnReference c => Href c
  | ColumnConstExpression v => Hconst v
  | ColumnIxExpression c k o => Hix c k o (ColumnExpression_ind' k)
  | RequireExpression v args => Hrequire v args (ColumnExpression_ind' v) (all args)
  | ReducerExpression r args => Hreducer r args (all args)
  | MethodCallExpression f t n args => Hmethod f t n args (all args)
  | ColumnCallExpression c args => Hcall c args (ColumnExpression_ind' c) (all args)
  | PointerExpression t args o => Hpointer t args o (all args)
  end.
End ColumnExpression_rect.

(** ** Effects

    Exceptions carry what the source raises: the key of a failed lookup,
    the message of a [ValueError], the source line of a failed [assert]. *)
Inductive Exception :=
| KeyError (key : string)
| ValueError (message : string)
| AssertionError (line : nat).

Inductive result (A : Type) : Type :=
| ok (a : A)
| raise (e : Exception).
Arguments ok {A} a.
Arguments raise {A} e.

Global Instance result_ret : MRet result := λ A x, ok x.
Global Instance result_bind : MBind result := λ A B f m,
  match m with
  | ok x => f x
  | raise e => raise e
  end.

(** A rewriter that is traced returns its result together with the
    expressions [eval_expression] was called on, in call order. *)
Definition Logged (A : Type) : Type := A * list ColumnExpression.

Global Instance Logged_ret : MRet Logged := λ A x, (x, []).
Global Instance Logged_bind : MBind Logged := λ A B f m,
  let '(x, l1) := m in let '(y, l2) := f x in (y, l1 ++ l2).

Definition called (e : ColumnExpression) : Logged unit := ((), [e]).

(** ** IdentityTransform *)

Module IdentityTransform.

(** Modelled from the spec: [IdentityTransform.eval_column_val] of
    [expression_visitor], which is not part of the sources at hand; the
    default rewrite rebuilds the node from its own fields. *)
Definition eval_column_val (c : ColumnRef) : ColumnRef :=
  mkColumnRef (_table c) (_name c).

(** Modelled from the spec: the default traversal of
    [IdentityTransform] ([expression_visitor] is not part of the sources
    at hand); it is bottom-up: the children are rewritten first, then
    the node is rebuilt from the rewritten children. *)
Fixpoint eval_expression (e : ColumnExpression) : ColumnExpression :=
  match e with
  | ColumnReference c => ColumnReference (eval_column_val c)
  | ColumnConstExpression v => ColumnConstExpression v
  | ColumnIxExpression c k o =>
      ColumnIxExpression (eval_column_val c) (eval_expression k) o
  | RequireExpression v gs =>
      RequireExpression (eval_expression v) (map eval_expression gs)
  | ReducerExpression r xs => ReducerExpression r (map eval_expression xs)
  | MethodCallExpression f t n xs =>
      MethodCallExpression f t n (map eval_expression xs)
  | ColumnCallExpression c xs =>
      ColumnCallExpression (eval_expression c) (map eval_expression xs)
  | PointerExpression t xs o => PointerExpression t (map eval_expression xs) o
  end.

End IdentityTransform.

(** ** ThisDesugaring *)

Module ThisDesugaring.

(** Modelled from the spec: [ThisMetaclass._eval_substitution] of
    [thisclass], which is not part of the sources at hand; the
    placeholder is looked up in the mapping and a miss is an error. *)
Definition _eval_substitution (substitution : gmap Token Relation) (t : Token)
  : result Relation :=
  match substitution !! t with
  | Some r => ok r
  | None => raise (KeyError t)
  end.

(** Modelled from the spec: [Joinable.__getitem__] of [table], which is
    not part of the sources at hand; [table[name]] is the reference to
    the column [name] of [table]. *)
Definition getitem (table : Relation) (name : string) : ColumnRef :=
  mkColumnRef (Joinable table) name.

Definition _desugar_table (substitution : gmap Token Relation) (table : TableRef)
  : result Relation :=
  match table with
  | This t => _eval_substitution substitution t
  | Joinable r => ok r
  end.

Definition eval_column_val (substitution : gmap Token Relation) (expression : ColumnRef)
  : result ColumnRef :=
  table ← _desugar_table substitution (_table expression);
  mret (getitem table (_name expression)).

(** [eval_expression] of [ThisDesugaring]: the overrides
    [eval_column_val] and [eval_pointer]; the other variants take the
    default traversal of [IdentityTransform.eval_expression], whose
    calls of [eval_expression] come back here. *)
Fixpoint eval_expression (substitution : gmap Token Relation) (e : ColumnExpression)
  : result ColumnExpression :=
  match e with
  | ColumnReference c =>
      c' ← eval_column_val substitution c; mret (ColumnReference c')
  | ColumnConstExpression v => mret (ColumnConstExpression v)
  | ColumnIxExpression c k o =>
      column_expression ← eval_column_val substitution c;
      keys_expression ← eval_expression substitution k;
      mret (ColumnIxExpression column_expression keys_expression o)
  | RequireExpression v gs =>
      val ← eval_expression substitution v;
      args ← mapM (eval_expression substitution) gs;
      mret (RequireExpression val args)
  | ReducerExpression r xs =>
      args ← mapM (eval_expression substitution) xs;
      mret (ReducerExpression r args)
  | MethodCallExpression f t n xs =>
      args ← mapM (eval_expression substitution) xs;
      mret (MethodCallExpression f t n args)
  | ColumnCallExpression c xs =>
      args ← mapM (eval_expression substitution) xs;
      col_expr ← eval_expression substitution c;
      mret (ColumnCallExpression col_expr args)
  | PointerExpression t xs o =>
      args ← mapM (eval_expression substitution) xs;
      let optional := o in
      desugared_table ← _desugar_table substitution t;
      mret (PointerExpression (Joinable desugared_table) args optional)
  end.

End ThisDesugaring.

(** ** TableReplacementWithNoneDesugaring *)

Module TableReplacementWithNoneDesugaring.

(** [expression.table is self._table] *)
Definition eval_column_val (T : TableRef) (c : ColumnRef) : ColumnExpression :=
  if decide (_table c = T) then ColumnConstExpression PyNone
  else ColumnReference (IdentityTransform.eval_column_val c).

(** The loop of [eval_require] over the rewritten guards: the first
    guard that is a constant holding [None] decides. *)
Fixpoint first_null (args : list ColumnExpression) (otherwise : ColumnExpression)
  : ColumnExpression :=
  match args with
  | [] => otherwise
  | ColumnConstExpression PyNone :: _ => ColumnConstExpression PyNone
  | _ :: rest => first_null rest otherwise
  end.

(** [eval_expression] of [TableReplacementWithNoneDesugaring], traced:
    the overrides [eval_column_val], [eval_ix] and [eval_require]; the
    other variants take the default traversal of
    [IdentityTransform.eval_expression]. *)
Fixpoint eval_expression (T : TableRef) (e : ColumnExpression)
  : Logged ColumnExpression :=
  _ ← called e;
  match e with
  | ColumnReference c => mret (eval_column_val T c)
  | ColumnConstExpression v => mret (ColumnConstExpression v)
  | ColumnIxExpression c k o =>
      let column_expression := IdentityTransform.eval_column_val c in
      keys_expression ← eval_expression T k;
      mret (ColumnIxExpression column_expression keys_expression o)
  | RequireExpression v gs =>
      val ← eval_expression T v;
      args ← mapM (eval_expression T) gs;
      mret (first_null args (RequireExpression val args))
  | ReducerExpression r xs =>
      args ← mapM (eval_expression T) xs;
      mret (ReducerExpression r args)
  | MethodCallExpression f t n xs =>
      args ← mapM (eval_expression T) xs;
      mret (MethodCallExpression f t n args)
  | ColumnCallExpression c xs =>
      args ← mapM (eval_expression T) xs;
      col_expr ← eval_expression T c;
      mret (ColumnCallExpression col_expr args)
  | PointerExpression t xs o =>
      args ← mapM (eval_expression T) xs;
      mret (PointerExpression t args o)
  end.

(** The rewritten expression, and the calls made to obtain it. *)
Definition flood (T : TableRef) (e : ColumnExpression) : ColumnExpression :=
  (eval_expression T e).1.
Definition calls (T : TableRef) (e : ColumnExpression) : list ColumnExpression :=
  (eval_expression T e).2.

End TableReplacementWithNoneDesugaring.

(** ** Properties of expressions the specification speaks of *)

(** [e] holds a column reference owned by [T]: a [ColumnReference] node or
    the base of an indexed lookup. *)
Fixpoint references (T : TableRef) (e : ColumnExpression) : bool :=
  match e with
  | ColumnReference c => bool_decide (_table c = T)
  | ColumnConstExpression _ => false
  | ColumnIxExpression c k _ => bool_decide (_table c = T) || references T k
  | RequireExpression v gs => references T v || existsb (references T) gs
  | ReducerExpression _ xs => existsb (references T) xs
  | MethodCallExpression _ _ _ xs => existsb (references T) xs
  | ColumnCallExpression c xs => references T c || existsb (references T) xs
  | PointerExpression _ xs _ => existsb (references T) xs
  end.

(** As [references], leaving out the bases of indexed lookups. *)
Fixpoint references_outside_ix_base (T : TableRef) (e : ColumnExpression) : bool :=
  match e with
  | ColumnReference c => bool_decide (_table c = T)
  | ColumnConstExpression _ => false
  | ColumnIxExpression _ k _ => references_outside_ix_base T k
  | RequireExpression v gs =>
      references_outside_ix_base T v || existsb (references_outside_ix_base T) gs
  | ReducerExpression _ xs => existsb (references_outside_ix_base T) xs
  | MethodCallExpression _ _ _ xs => existsb (references_outside_ix_base T) xs
  | ColumnCallExpression c xs =>
      references_outside_ix_base T c || existsb (references_outside_ix_base T) xs
  | PointerExpression _ xs _ => existsb (references_outside_ix_base T) xs
  end.

Definition is_null_const (e : ColumnExpression) : bool :=
  match e with
  | ColumnConstExpression PyNone => true
  | _ => false
  end.

(** Some [RequireExpression] inside [e] has a guard that is a constant
    holding [None]. *)
Fixpoint has_null_guard (e : ColumnExpression) : bool :=
  match e with
  | ColumnReference _ | ColumnConstExpression _ => false
  | ColumnIxExpression _ k _ => has_null_guard k
  | RequireExpression v gs =>
      existsb is_null_const gs || has_null_guard v || existsb has_null_guard gs
  | ReducerExpression _ xs => existsb has_null_guard xs
  | MethodCallExpression _ _ _ xs => existsb has_null_guard xs
  | ColumnCallExpression c xs => has_null_guard c || existsb has_null_guard xs
  | PointerExpression _ xs _ => existsb has_null_guard xs
  end.

Definition is_placeholder (t : TableRef) : bool :=
  match t with
  | This _ => true
  | Joinable _ => false
  end.

(** No column reference and no pointer of [e] is owned by a placeholder. *)
Fixpoint placeholder_free (e : ColumnExpression) : bool :=
  match e with
  | ColumnReference c => negb (is_placeholder (_table c))
  | ColumnConstExpression _ => true
  | ColumnIxExpression c k _ => negb (is_placeholder (_table c)) && placeholder_free k
  | RequireExpression v gs => placeholder_free v && forallb placeholder_free gs
  | ReducerExpression _ xs => forallb placeholder_free xs
  | MethodCallExpression _ _ _ xs => forallb placeholder_free xs
  | ColumnCallExpression c xs => placeholder_free c && forallb placeholder_free xs
  | PointerExpression t xs _ => negb (is_placeholder t) && forallb placeholder_free xs
  end.

(** ** TableCallbackDesugaring, TableSelectDesugaring, TableReduceDesugaring *)

Module TableCallbackDesugaring.

(** The relation a callback desugaring works on: a joinable for the
    projection flavor, a grouped joinable for the aggregation flavor. *)
Inductive TableLike :=
| TableSelectDesugaring (table_like : Relation)
| TableReduceDesugaring (table_like : Relation).

(** [f"arg_{index}"] *)
Definition arg_name (index : nat) : string := "arg_" +:+ pretty index.

(** A dict built from items in order: a later item replaces an earlier
    one with the same key. *)
Definition dict_of {V} (items : list (string * V)) : gmap string V :=
  foldl (λ d kv, <[kv.1 := kv.2]> d) ∅ items.

(** Modelled from the spec: attribute access on a relation ([table.result])
    of [table], which is not part of the sources at hand; it is the
    reference to the column of that name. *)
Definition getattr (table : Relation) (name : string) : ColumnRef :=
  mkColumnRef (Joinable table) name.

Section Collaborators.
(** The downstream interfaces, none of them part of the sources at
    hand: type inference, the row-transformer generator, running a
    generated operator on its input relation, and the operations
    [select] and [reduce] with their keyword columns. *)
Context {DType Operator : Type}.
Variable eval_type : ColumnExpression → DType.
Variable method_call_transformer : nat → DType → Operator.
Variable run : Operator → Relation → Relation.
Variable select : Relation → gmap string ColumnExpression → Relation.
Variable reduce : Relation → gmap string ColumnExpression → Relation.
Variable _joinable_to_group : Relation → Relation.

Definition callback (self : TableLike) (kwargs : gmap string ColumnExpression)
  : Relation :=
  match self with
  | TableSelectDesugaring table_like => select table_like kwargs
  | TableReduceDesugaring table_like => reduce table_like kwargs
  end.

(** [eval_call], given the arguments already rewritten by
    [self.eval_expression]. *)
Definition eval_call (self : TableLike) (expression : ColumnExpression)
    (col_expr : ColumnExpression) (rewritten : list ColumnExpression)
  : ColumnExpression :=
  let args := dict_of (imap (λ index arg, (arg_name index, arg)) rewritten) in
  let transformer := method_call_transformer (size args) (eval_type expression) in
  let method_call_input := callback self (<["method" := col_expr]> args) in
  let table := run transformer method_call_input in
  ColumnReference (getattr table "result").

(** [eval_expression] of the two callback desugarings: [eval_call]
    for both, [eval_reducer] for the aggregation flavor; the other
    variants take the default traversal of
    [IdentityTransform.eval_expression]. *)
Fixpoint eval_expression (self : TableLike) (e : ColumnExpression)
  : ColumnExpression :=
  match e with
  | ColumnReference c => ColumnReference (IdentityTransform.eval_column_val c)
  | ColumnConstExpression v => ColumnConstExpression v
  | ColumnIxExpression c k o =>
      ColumnIxExpression (IdentityTransform.eval_column_val c)
        (eval_expression self k) o
  | RequireExpression v gs =>
      RequireExpression (eval_expression self v) (map (eval_expression self) gs)
  | ReducerExpression r xs =>
      match self with
      | TableReduceDesugaring table_like =>
          let select_desugar := TableSelectDesugaring (_joinable_to_group table_like) in
          ReducerExpression r (map (eval_expression select_desugar) xs)
      | TableSelectDesugaring _ =>
          ReducerExpression r (map (eval_expression self) xs)
      end
  | MethodCallExpression f t n xs =>
      MethodCallExpression f t n (map (eval_expression self) xs)
  | ColumnCallExpression c xs =>
      eval_call self e c (map (eval_expression self) xs)
  | PointerExpression t xs o =>
      PointerExpression t (map (eval_expression self) xs) o
  end.
End Collaborators.

End TableCallbackDesugaring.

(** ** combine_args_kwargs *)

(** The loop [for x in xs: body], threading the state the body updates;
    the first exception ends it. *)
Fixpoint for_each {S X} (body : S → X → result S) (s : S) (xs : list X) : result S :=
  match xs with
  | [] => ok s
  | x :: xs' => s' ← body s x; for_each body s' xs'
  end.

(** The values an operation may be handed ([Any]): a column expression,
    a [table.Table], or anything else. *)
Inductive Any :=
| Expression (e : ColumnExpression)
| Table (r : Relation)
| Other (v : Literal).

Definition is_Table (x : Any) : bool :=
  match x with
  | Table _ => true
  | _ => false
  end.

(** [expression if isinstance(expression, expr.ColumnExpression)
     else expr.ColumnConstExpression(expression)] *)
Definition wrap_const (expression : Any) : ColumnExpression :=
  match expression with
  | Expression e => e
  | Table r => ColumnConstExpression (PyObject r)
  | Other v => ColumnConstExpression v
  end.

(** How an f-string renders a name; [None] is Python's [None]. *)
Definition format_name (name : option string) : string :=
  match name with
  | Some s => s
  | None => "None"
  end.

Definition duplicate_error (name : option string) : Exception :=
  ValueError ("Duplicate expression value given for " +:+ format_name name).
Definition reserved_error : Exception :=
  ValueError "Can't use 'id' as a column name".

Section combine_args_kwargs.
(** [expr.smart_name], which is not part of the sources at hand: the
    name a positional expression is given, possibly [None]. *)
Variable smart_name : ColumnExpression → option string.

Definition add (all_args : gmap (option string) ColumnExpression)
    (item : option string * Any) : result (gmap (option string) ColumnExpression) :=
  let '(name, expression) := item in
  if is_Table expression then raise (AssertionError 249)
  else if decide (is_Some (all_args !! name)) then raise (duplicate_error name)
  else if decide (name = Some "id") then raise reserved_error
  else ok (<[name := wrap_const expression]> all_args).

(** The arguments in the order [add] sees them. *)
Definition items (args : list ColumnExpression) (kwargs : list (string * Any))
  : list (option string * Any) :=
  map (λ expression, (smart_name expression, Expression expression)) args
  ++ map (λ kv, (Some kv.1, kv.2)) kwargs.

Definition combine_args_kwargs (args : list ColumnExpression)
    (kwargs : list (string * Any)) : result (gmap (option string) ColumnExpression) :=
  all_args ← for_each add ∅
    (map (λ expression, (smart_name expression, Expression expression)) args);
  for_each add all_args (map (λ kv, (Some kv.1, kv.2)) kwargs).
End combine_args_kwargs.

(** What the loop leaves in [all_args] when no argument offends. *)
Definition added (m : gmap (option string) ColumnExpression)
    (its : list (option string * Any)) : gmap (option string) ColumnExpression :=
  foldl (λ m it, <[it.1 := wrap_const it.2]> m) m its.

(** No argument of [its] offends when the loop starts from [m]. *)
Definition clean_from (m : gmap (option string) ColumnExpression)
    (its : list (option string * Any)) : Prop :=
  Forall (λ it, is_Table it.2 = false) its ∧ NoDup its.*1 ∧ (Some "id" ∉ its.*1)
  ∧ ∀ name, name ∈ (its.*1) → m !! name = None.

(** No argument of [its] offends: none is a table, the names are distinct
    and none of them is [id]. *)
Definition no_offender (its : list (option string * Any)) : Prop :=
  Forall (λ it, is_Table it.2 = false) its ∧ NoDup its.*1 ∧ (Some "id" ∉ its.*1).

(** Modelled from the spec: [expr.smart_name], which is not part of the
    sources at hand; a positional expression is named from a canonical
    name, the referenced column's own name. *)
Definition column_name (e : ColumnExpression) : option string :=
  match e with
  | ColumnReference c => Some (_name c)
  | ColumnIxExpression c _ _ => Some (_name c)
  | _ => None
  end.

(** ** desugar *)

(** Python dicts keep insertion order: setting a key that is present
    replaces its value in place, a new key goes last. *)
Fixpoint dict_set {V} (k : string) (v : V) (d : list (string * V)) : list (string * V) :=
  match d with
  | [] => [(k, v)]
  | (k', v') :: d' =>
      if decide (k = k') then (k, v) :: d' else (k', v') :: dict_set k v d'
  end.

Definition dict_update {V} (d : list (string * V)) (items : list (string * V))
  : list (string * V) :=
  foldl (λ d kv, dict_set kv.1 kv.2 d) d items.

Fixpoint dict_get {V} (k : string) (d : list (string * V)) : option V :=
  match d with
  | [] => None
  | (k', v) :: d' => if decide (k = k') then Some v else dict_get k d'
  end.

(** Following the specification's words: the first bound argument that
    exposes a rewriting context, searched among all bound arguments. *)
Definition first_exposing_context (named_args : list (string * Any)) : option Relation :=
  head (omap (λ kv, match kv.2 with Table r => Some r | _ => None end) named_args).

Section desugar.
Context {R : Type}.
(** [function_spec(func).arg_names] and the [substitution] keyword of
    the decorator. *)
Variable arg_names : list string.
Variable substitution_param : list (Token * Literal).
(** The attribute [_substitution] of a rewriting context. *)
Variable _substitution : Relation → gmap Token Any.
(** Lines 297 to 308 of the wrapper: the arguments are resolved against
    the scope, rewritten by the context's rewriters and forwarded to
    the wrapped operation. *)
Variable resolve_and_forward :
  option Relation → gmap Token Any → list Any → list (string * Any) → result R.

(** [{**dict(zip(fn_spec.arg_names, args)), **kwargs}] *)
Definition bind_arguments (args : list Any) (kwargs : list (string * Any))
  : list (string * Any) :=
  dict_update (dict_update [] (zip arg_names args)) kwargs.

Definition bind_scope (named_args : list (string * Any))
    (this_substitution : gmap Token Any) (item : Token * Literal)
  : result (gmap Token Any) :=
  let '(key, value) := item in
  match value with
  | PyStr value =>
      match dict_get value named_args with
      | Some arg => ok (<[key := arg]> this_substitution)
      | None => raise (KeyError value)
      end
  | _ => raise (AssertionError 294)
  end.

(** Lines 282 to 295 of the wrapper: the rewriting context and the scope
    substitution of the call. *)
Definition wrapper_scope (args : list Any) (kwargs : list (string * Any))
  : result (option Relation * gmap Token Any) :=
  let named_args := bind_arguments args kwargs in
  match named_args with
  | [] => raise (AssertionError 283)
  | (_, first_arg) :: _ =>
      let desugaring_context :=
        match first_arg with
        | Table r => Some r
        | _ => None
        end in
      let this_substitution : gmap Token Any :=
        match desugaring_context with
        | Some r => _substitution r ∪ ∅
        | None => ∅
        end in
      this_substitution ← for_each (bind_scope named_args) this_substitution
        substitution_param;
      ok (desugaring_context, this_substitution)
  end.

Definition wrapper (args : list Any) (kwargs : list (string * Any)) : result R :=
  scope ← wrapper_scope args kwargs;
  resolve_and_forward scope.1 scope.2 args kwargs.
End desugar.

(** ** Further measures of expressions *)

(** The number of nodes [eval_expression] is called on: every node of the
    expression, the bases of indexed lookups apart. *)
Fixpoint nodes (e : ColumnExpression) : nat :=
  match e with
  | ColumnReference _ | ColumnConstExpression _ => 1
  | ColumnIxExpression _ k _ => S (nodes k)
  | RequireExpression v gs => S (nodes v + sum_list (map nodes gs))
  | ReducerExpression _ xs => S (sum_list (map nodes xs))
  | MethodCallExpression _ _ _ xs => S (sum_list (map nodes xs))
  | ColumnCallExpression c xs => S (nodes c + sum_list (map nodes xs))
  | PointerExpression _ xs _ => S (sum_list (map nodes xs))
  end.

Definition token_of (t : TableRef) : list Token :=
  match t with
  | This p => [p]
  | Joinable _ => []
  end.

(** The scope tokens that own a column reference or a pointer of [e]. *)
Fixpoint placeholders (e : ColumnExpression) : list Token :=
  match e with
  | ColumnReference c => token_of (_table c)
  | ColumnConstExpression _ => []
  | ColumnIxExpression c k _ => token_of (_table c) ++ placeholders k
  | RequireExpression v gs => placeholders v ++ concat (map placeholders gs)
  | ReducerExpression _ xs => concat (map placeholders xs)
  | MethodCallExpression _ _ _ xs => concat (map placeholders xs)
  | ColumnCallExpression c xs => placeholders c ++ concat (map placeholders xs)
  | PointerExpression t xs _ => token_of t ++ concat (map placeholders xs)
  end.

(** Some node of [e] is an inline call. *)
Fixpoint has_call (e : ColumnExpression) : bool :=
  match e with
  | ColumnReference _ | ColumnConstExpression _ => false
  | ColumnIxExpression _ k _ => has_call k
  | RequireExpression v gs => has_call v || existsb has_call gs
  | ReducerExpression _ xs => existsb has_call xs
  | MethodCallExpression _ _ _ xs => existsb has_call xs
  | ColumnCallExpression _ _ => true
  | PointerExpression _ xs _ => existsb has_call xs
  end.

(** ** TableSubstitutionDesugaring *)

Global Instance TableRef_countable : Countable TableRef.
Proof.
  refine (inj_countable'
            (λ t, match t with Joinable r => inl r | This p => inr p end)
            (λ x, match x with inl r => Joinable r | inr p => This p end) _).
  by intros [].
Defined.

Module TableSubstitutionDesugaring.

(** [self._table_substitution.get(expression.table)], then the default
    rewrite on a miss and [target_table[expression.name]] on a hit. *)
Definition eval_column_val (_table_substitution : gmap TableRef Relation)
    (expression : ColumnRef) : ColumnRef :=
  let target_table := _table_substitution !! _table expression in
  match target_table with
  | None => IdentityTransform.eval_column_val expression
  | Some target_table => ThisDesugaring.getitem target_table (_name expression)
  end.

(** [eval_expression] of [TableSubstitutionDesugaring]: the override
    [eval_column_val]; the other variants take the default traversal of
    [IdentityTransform.eval_expression], whose calls of [eval_expression]
    come back here. *)
Fixpoint eval_expression (_table_substitution : gmap TableRef Relation)
    (e : ColumnExpression) : ColumnExpression :=
  match e with
  | ColumnReference c => ColumnReference (eval_column_val _table_substitution c)
  | ColumnConstExpression v => ColumnConstExpression v
  | ColumnIxExpression c k o =>
      ColumnIxExpression (eval_column_val _table_substitution c)
        (eval_expression _table_substitution k) o
  | RequireExpression v gs =>
      RequireExpression (eval_expression _table_substitution v)
        (map (eval_expression _table_substitution) gs)
  | ReducerExpression r xs =>
      ReducerExpression r (map (eval_expression _table_substitution) xs)
  | MethodCallExpression f t n xs =>
      MethodCallExpression f t n (map (eval_expression _table_substitution) xs)
  | ColumnCallExpression c xs =>
      ColumnCallExpression (eval_expression _table_substitution c)
        (map (eval_expression _table_substitution) xs)
  | PointerExpression t xs o =>
      PointerExpression t (map (eval_expression _table_substitution) xs) o
  end.

(** The substitution that maps as [first] and then [second] do in turn. *)
Definition and_then (first second : gmap TableRef Relation) : gmap TableRef Relation :=
  ((λ r, default r (second !! Joinable r)) <$> first) ∪ second.

End TableSubstitutionDesugaring.

(** ** _desugar_this_arg, _desugar_this_args, _desugar_this_kwargs *)

(** An argument of a wrapped operation: a [thisclass.ThisMetaclass],
    known by its scope token and by whether it is a subclass of
    [thisclass.iter_guard], or anything else. *)
Inductive Argument :=
| Given (a : Any)
| ThisClass (t : Token) (iter_guard : bool).

Section desugar_this.
(** What [thisclass] and [table] provide and the sources at hand do not:
    the prefix [thisclass.KEY_GUARD], what iterating over a relation
    yields ([ret.extend(evaled_table)]) and the items a relation gives
    as a mapping ([new_kwargs.update(evaled_table)]). *)
Variable KEY_GUARD : string.
Variable iterate : Relation → list Argument.
Variable mapping_items : Relation → list (string * Argument).

(** [ThisDesugaring(substitution).eval_expression(expression)]: what is
    not a column expression goes to [DesugaringTransform.eval_any], which
    returns it as it is. *)
Definition _desugar_this_arg (substitution : gmap Token Relation) (expression : Argument)
  : result Argument :=
  match expression with
  | Given (Expression e) =>
      e' ← ThisDesugaring.eval_expression substitution e; mret (Given (Expression e'))
  | _ => mret expression
  end.

Definition _desugar_this_args (substitution : gmap Token Relation) (args : list Argument)
  : result (list Argument) :=
  for_each (λ ret arg,
      match arg with
      | ThisClass t iter_guard =>
          if iter_guard then
            evaled_table ← ThisDesugaring._eval_substitution substitution t;
            mret (ret ++ iterate evaled_table)
          else raise (AssertionError 210)
      | Given _ =>
          arg' ← _desugar_this_arg substitution arg; mret (ret ++ [arg'])
      end) [] args.

(** [name.startswith(thisclass.KEY_GUARD)] *)
Definition guarded (kv : string * Argument) : bool := String.prefix KEY_GUARD kv.1.

Definition _desugar_this_kwargs (substitution : gmap Token Relation)
    (kwargs : list (string * Argument)) : result (list (string * Argument)) :=
  let new_kwargs := dict_update [] (List.filter (λ kv, negb (guarded kv)) kwargs) in
  new_kwargs ← for_each (λ new_kwargs kv,
      if guarded kv then
        match kv.2 with
        | ThisClass t _ =>
            evaled_table ← ThisDesugaring._eval_substitution substitution t;
            mret (dict_update new_kwargs (mapping_items evaled_table))
        | Given _ => raise (AssertionError 232)
        end
      else mret new_kwargs) new_kwargs kwargs;
  mapM (λ kv, arg ← _desugar_this_arg substitution kv.2; mret (kv.1, arg)) new_kwargs.
End desugar_this.

(** * Properties *)

(** ** The default traversal rebuilds what it is given *)

Lemma map_id_Forall {A} (f : A → A) (l : list A) :
  Forall (λ x, f x = x) l → map f l = l.
Proof. induction 1; simpl; congruence. Qed.

Lemma identity_transform_id (e : ColumnExpression) :
  IdentityTransform.eval_expression e = e.
Proof.
  induction e as [c|v|c k o IHk|v gs IHv IHgs|r xs IH|f t n xs IH|c xs IHc IH|t xs o IH]
    using ColumnExpression_ind'; simpl;
    rewrite ?(map_id_Forall IdentityTransform.eval_expression) by done.
  - by destruct c.
  - done.
  - destruct c. simpl. by rewrite IHk.
  - by rewrite IHv.
  - done.
  - done.
  - by rewrite IHc.
  - done.
Qed.

Section NullFlooding.
Import TableReplacementWithNoneDesugaring.

(** ** Traced list comprehensions *)

Lemma mapM_Logged_fst {A B} (f : A → Logged B) (l : list A) :
  (mapM f l).1 = map (λ x, (f x).1) l.
Proof.
  induction l as [|x l IH]; simpl; [done|].
  unfold mbind, Logged_bind. destruct (f x) as [y t1].
  destruct (mapM f l) as [ys t2]. simpl in *. by rewrite IH.
Qed.

Lemma mapM_Logged_snd {A B} (f : A → Logged B) (l : list A) :
  (mapM f l).2 = concat (map (λ x, (f x).2) l).
Proof.
  induction l as [|x l IH]; simpl; [done|].
  unfold mbind, Logged_bind. destruct (f x) as [y t1].
  destruct (mapM f l) as [ys t2]. simpl in *. rewrite IH.
  by rewrite app_nil_r.
Qed.

(** ** Null-flooding: the equations of [flood] and [calls] *)

Lemma flood_column_val T c : flood T (ColumnReference c) = eval_column_val T c.
Proof. done. Qed.

Lemma flood_const T v : flood T (ColumnConstExpression v) = ColumnConstExpression v.
Proof. done. Qed.

Lemma flood_ix T c k o :
  flood T (ColumnIxExpression c k o) = ColumnIxExpression c (flood T k) o.
Proof.
  unfold flood. simpl. unfold mbind, Logged_bind.
  destruct (eval_expression T k) as [k' t]. by destruct c.
Qed.

Lemma flood_require T v gs :
  flood T (RequireExpression v gs) =
  first_null (map (flood T) gs) (RequireExpression (flood T v) (map (flood T) gs)).
Proof.
  unfold flood. simpl. unfold mbind, Logged_bind.
  pose proof (mapM_Logged_fst (eval_expression T) gs) as Hm.
  destruct (eval_expression T v) as [v' t1].
  destruct (mapM (eval_expression T) gs) as [gs' t2]. simpl in *. by subst.
Qed.

Lemma flood_reducer T r xs :
  flood T (ReducerExpression r xs) = ReducerExpression r (map (flood T) xs).
Proof.
  unfold flood. simpl. unfold mbind, Logged_bind.
  pose proof (mapM_Logged_fst (eval_expression T) xs) as Hm.
  destruct (mapM (eval_expression T) xs) as [xs' t2]. simpl in *. by subst.
Qed.

Lemma flood_method_call T f t n xs :
  flood T (MethodCallExpression f t n xs) = MethodCallExpression f t n (map (flood T) xs).
Proof.
  unfold flood. simpl. unfold mbind, Logged_bind.
  pose proof (mapM_Logged_fst (eval_expression T) xs) as Hm.
  destruct (mapM (eval_expression T) xs) as [xs' t2]. simpl in *. by subst.
Qed.

Lemma flood_call T c xs :
  flood T (ColumnCallExpression c xs) =
  ColumnCallExpression (flood T c) (map (flood T) xs).
Proof.
  unfold flood. simpl. unfold mbind, Logged_bind.
  pose proof (mapM_Logged_fst (eval_expression T) xs) as Hm.
  destruct (mapM (eval_expression T) xs) as [xs' t2].
  destruct (eval_expression T c) as [c' t1]. simpl in *. by subst.
Qed.

Lemma flood_pointer T t xs o :
  flood T (PointerExpression t xs o) = PointerExpression t (map (flood T) xs) o.
Proof.
  unfold flood. simpl. unfold mbind, Logged_bind.
  pose proof (mapM_Logged_fst (eval_expression T) xs) as Hm.
  destruct (mapM (eval_expression T) xs) as [xs' t2]. simpl in *. by subst.
Qed.

Lemma calls_require T v gs :
  calls T (RequireExpression v gs) =
  RequireExpression v gs :: calls T v ++ concat (map (calls T) gs).
Proof.
  unfold calls. simpl. unfold mbind, Logged_bind.
  pose proof (mapM_Logged_snd (eval_expression T) gs) as Hm.
  destruct (eval_expression T v) as [v' t1].
  destruct (mapM (eval_expression T) gs) as [gs' t2]. simpl in *. subst.
  by rewrite app_nil_r.
Qed.

Lemma calls_head T e : ∃ rest, calls T e = e :: rest.
Proof.
  unfold calls. destruct e; simpl; unfold mbind, Logged_bind;
    repeat match goal with
    | |- context [eval_expression T ?x] => destruct (eval_expression T x)
    | |- context [mapM ?f ?x] => destruct (mapM f x)
    end; simpl; eauto.
Qed.

Lemma first_null_spec args otherwise :
  first_null args otherwise =
  if existsb is_null_const args then ColumnConstExpression PyNone else otherwise.
Proof.
  induction args as [|a args IH]; simpl; [done|].
  destruct a as [| [] | | | | | |]; simpl; auto.
Qed.

Lemma existsb_false_Forall {A} (p : A → bool) (l : list A) :
  existsb p l = false ↔ Forall (λ x, p x = false) l.
Proof.
  induction l as [|x l IH]; simpl.
  - split; auto.
  - rewrite orb_false_iff, IH, Forall_cons. tauto.
Qed.

(** ** Null-flooding: what it leaves and what it removes *)

Lemma flood_unchanged T e :
  references_outside_ix_base T e = false → has_null_guard e = false → flood T e = e.
Proof.
  induction e as [c|v|c k o IHk|v gs IHv IHgs|r xs IH|f t n xs IH|c xs IHc IH|t xs o IH]
    using ColumnExpression_ind'; simpl; intros Hr Hn.
  - rewrite flood_column_val. unfold eval_column_val.
    apply bool_decide_eq_false in Hr. rewrite decide_False by done. by destruct c.
  - done.
  - rewrite flood_ix, IHk; done.
  - apply orb_false_iff in Hr as [Hrv Hrg].
    apply orb_false_iff in Hn as [Hn Hng]. apply orb_false_iff in Hn as [Hnull Hnv].
    rewrite flood_require, IHv by done.
    rewrite (map_id_Forall (flood T) gs).
    + by rewrite first_null_spec, Hnull.
    + apply existsb_false_Forall in Hrg, Hng.
      rewrite Forall_forall in IHgs, Hrg, Hng. apply Forall_forall. auto.
  - rewrite flood_reducer, (map_id_Forall (flood T) xs); [done|].
    apply existsb_false_Forall in Hr, Hn.
    rewrite Forall_forall in IH, Hr, Hn. apply Forall_forall. auto.
  - rewrite flood_method_call, (map_id_Forall (flood T) xs); [done|].
    apply existsb_false_Forall in Hr, Hn.
    rewrite Forall_forall in IH, Hr, Hn. apply Forall_forall. auto.
  - apply orb_false_iff in Hr as [Hrc Hr]. apply orb_false_iff in Hn as [Hnc Hn].
    rewrite flood_call, IHc, (map_id_Forall (flood T) xs); [done| |done..].
    apply existsb_false_Forall in Hr, Hn.
    rewrite Forall_forall in IH, Hr, Hn. apply Forall_forall. auto.
  - rewrite flood_pointer, (map_id_Forall (flood T) xs); [done|].
    apply existsb_false_Forall in Hr, Hn.
    rewrite Forall_forall in IH, Hr, Hn. apply Forall_forall. auto.
Qed.

Lemma references_outside_ix_base_le T e :
  references T e = false → references_outside_ix_base T e = false.
Proof.
  induction e as [c|v|c k o IHk|v gs IHv IHgs|r xs IH|f t n xs IH|c xs IHc IH|t xs o IH]
    using ColumnExpression_ind'; simpl; intros Hr;
    repeat match goal with
    | H : _ || _ = false |- _ => apply orb_false_iff in H as [? ?]
    end;
    rewrite ?orb_false_iff; repeat split; auto;
    match goal with
    | H : existsb _ _ = false |- _ =>
        apply existsb_false_Forall in H; apply existsb_false_Forall;
        match goal with
        | IH : Forall _ _ |- _ =>
            rewrite Forall_forall in IH, H; apply Forall_forall; auto
        end
    end.
Qed.

Lemma existsb_map_false {A B} (p : B → bool) (f : A → B) (l : list A) :
  Forall (λ x, p (f x) = false) l → existsb p (map f l) = false.
Proof. induction 1; simpl; [done|]. apply orb_false_iff; auto. Qed.

Lemma flood_removes T e : references_outside_ix_base T (flood T e) = false.
Proof.
  induction e as [c|v|c k o IHk|v gs IHv IHgs|r xs IH|f t n xs IH|c xs IHc IH|t xs o IH]
    using ColumnExpression_ind'.
  - rewrite flood_column_val. unfold eval_column_val. case_decide; simpl; [done|].
    by apply bool_decide_eq_false.
  - done.
  - by rewrite flood_ix.
  - rewrite flood_require, first_null_spec.
    destruct (existsb is_null_const (map (flood T) gs)); simpl; [done|].
    rewrite IHv. by apply existsb_map_false.
  - rewrite flood_reducer. simpl. by apply existsb_map_false.
  - rewrite flood_method_call. simpl. by apply existsb_map_false.
  - rewrite flood_call. simpl. rewrite IHc. by apply existsb_map_false.
  - rewrite flood_pointer. simpl. by apply existsb_map_false.
Qed.

(** C1: null-flooding a relation [T] rewrites the value and every guard
    of a [RequireExpression]; when some rewritten guard is a constant
    holding [None] the result is that constant whatever the value and the
    other guards are, otherwise the node is rebuilt from the rewritten
    value and guards; and in both cases [eval_expression] is called on the
    node, then on the value, then on every guard in turn, each guard being
    traversed in full. *)
Theorem flood_require_null_propagation (T : TableRef) (v : ColumnExpression)
    (gs : list ColumnExpression) :
  (flood T (RequireExpression v gs) =
     if existsb is_null_const (map (flood T) gs)
     then ColumnConstExpression PyNone
     else RequireExpression (flood T v) (map (flood T) gs))
  ∧ (∀ g, g ∈ gs → flood T g = ColumnConstExpression PyNone →
       flood T (RequireExpression v gs) = ColumnConstExpression PyNone)
  ∧ calls T (RequireExpression v gs) =
      RequireExpression v gs :: calls T v ++ concat (map (calls T) gs)
  ∧ (∀ g, g ∈ gs → g ∈ calls T (RequireExpression v gs)).
Proof.
  split_and!.
  - by rewrite flood_require, first_null_spec.
  - intros g Hg Hnull. rewrite flood_require, first_null_spec.
    assert (existsb is_null_const (map (flood T) gs) = true) as ->; [|done].
    apply existsb_exists. exists (flood T g). split.
    + apply in_map, list_elem_of_In, Hg.
    + by rewrite Hnull.
  - apply calls_require.
  - intros g Hg. rewrite calls_require.
    apply list_elem_of_further, elem_of_app. right.
    destruct (calls_head T g) as [rest Hrest].
    apply list_elem_of_In, in_concat. exists (calls T g). split.
    + apply in_map, list_elem_of_In, Hg.
    + rewrite Hrest. by left.
Qed.

Lemma flood_require_null_propagation_witness :
  let T := Joinable 0 in
  let other := ColumnReference (mkColumnRef (Joinable 1) "b") in
  let e := RequireExpression (ColumnReference (mkColumnRef (Joinable 1) "x"))
             [ColumnReference (mkColumnRef T "a"); other] in
  flood T e = ColumnConstExpression PyNone ∧ other ∈ calls T e.
Proof.
  intros T other e.
  destruct (flood_require_null_propagation T
              (ColumnReference (mkColumnRef (Joinable 1) "x"))
              [ColumnReference (mkColumnRef T "a"); other]) as (_ & Hnull & _ & Hcalls).
  split.
  - apply (Hnull (ColumnReference (mkColumnRef T "a"))); [by left | reflexivity].
  - apply Hcalls. right. by left.
Defined.

(** C5, as the code has it: null-flooding [T] rebuilds an indexed lookup
    with its base as it was, also when [T] owns the base, with the keys
    flooded recursively and with the same optional flag; in the flooded
    keys no column reference owned by [T] is left outside the bases of
    indexed lookups. *)
Theorem flood_ix_keeps_base (T : TableRef) (c : ColumnRef) (k : ColumnExpression)
    (o : bool) :
  flood T (ColumnIxExpression c k o) = ColumnIxExpression c (flood T k) o
  ∧ references_outside_ix_base T (flood T k) = false.
Proof. split; [apply flood_ix | apply flood_removes]. Qed.

(** C5, as stated, fails: the base of an indexed lookup that [T] owns is
    still owned by [T] after flooding [T]. *)
Lemma flood_ix_base_not_flooded :
  let T := Joinable 0 in
  let e := ColumnIxExpression (mkColumnRef T "x")
             (ColumnReference (mkColumnRef T "k")) true in
  flood T e = ColumnIxExpression (mkColumnRef T "x") (ColumnConstExpression PyNone) true
  ∧ references T (flood T e) = true.
Proof. by vm_compute. Qed.

(** C8, as the code has it: null-flooding [T] over an expression that
    holds no reference to [T] and in which no [RequireExpression] has a
    guard that is a constant holding [None] returns the expression
    unchanged. *)
Theorem flood_disjoint_unchanged (T : TableRef) (e : ColumnExpression) :
  references T e = false → has_null_guard e = false → flood T e = e.
Proof.
  intros Hr Hn. apply flood_unchanged; [|done]. by apply references_outside_ix_base_le.
Qed.

Lemma flood_disjoint_unchanged_witness :
  let T := Joinable 0 in
  let e := RequireExpression (ColumnReference (mkColumnRef (Joinable 1) "x"))
             [ColumnReference (mkColumnRef (Joinable 1) "y")] in
  flood T e = e.
Proof. apply (flood_disjoint_unchanged (Joinable 0)); reflexivity. Defined.

(** C8, as stated, fails: a [RequireExpression] guarded by a constant
    holding [None] holds no reference to [T], and flooding [T] replaces it
    by the constant. *)
Lemma flood_disjoint_changes_null_guard :
  let T := Joinable 0 in
  let e := RequireExpression (ColumnReference (mkColumnRef (Joinable 1) "x"))
             [ColumnConstExpression PyNone] in
  references T e = false
  ∧ flood T e = ColumnConstExpression PyNone
  ∧ flood T e ≠ e.
Proof. by vm_compute. Qed.

End NullFlooding.

(** ** Self-reference resolution *)

Section SelfReference.
Import ThisDesugaring.

Lemma bind_ok_inv {A B} (m : result A) (f : A → result B) (b : B) :
  m ≫= f = ok b → ∃ a, m = ok a ∧ f a = ok b.
Proof. destruct m; simpl; [eauto | discriminate]. Qed.

Lemma mapM_result_ok {A B} (f : A → result B) (l : list A) (l' : list B) :
  Forall2 (λ x y, f x = ok y) l l' → mapM f l = ok l'.
Proof. induction 1 as [|x y l l' Hx _ IH]; simpl; [done|]. by rewrite Hx, IH. Qed.

Lemma mapM_result_inv {A B} (f : A → result B) (l : list A) (l' : list B) :
  mapM f l = ok l' → Forall2 (λ x y, f x = ok y) l l'.
Proof.
  revert l'. induction l as [|x l IH]; simpl; intros l' H.
  - inversion H. constructor.
  - apply bind_ok_inv in H as (y & Hy & H). apply bind_ok_inv in H as (ys & Hys & H).
    inversion H; subst. constructor; auto.
Qed.

Lemma mapM_result_same {A} (f : A → result A) (l : list A) :
  Forall (λ x, f x = ok x) l → mapM f l = ok l.
Proof. induction 1 as [|x l Hx _ IH]; simpl; [done|]. by rewrite Hx, IH. Qed.

Lemma forallb_Forall_true {A} (p : A → bool) (l : list A) :
  forallb p l = true ↔ Forall (λ x, p x = true) l.
Proof.
  induction l as [|x l IH]; simpl.
  - split; auto.
  - rewrite andb_true_iff, IH, Forall_cons. tauto.
Qed.

Lemma eval_column_val_resolved s c :
  is_placeholder (_table c) = false → eval_column_val s c = ok c.
Proof. destruct c as [[r|t] n]; simpl; [done | discriminate]. Qed.

Lemma eval_column_val_no_placeholder s c c' :
  eval_column_val s c = ok c' → is_placeholder (_table c') = false.
Proof.
  unfold eval_column_val. intros H. apply bind_ok_inv in H as (r & _ & H).
  by inversion H.
Qed.

Lemma resolve_resolved s e : placeholder_free e = true → eval_expression s e = ok e.
Proof.
  induction e as [c|v|c k o IHk|v gs IHv IHgs|r xs IH|f t n xs IH|c xs IHc IH|t xs o IH]
    using ColumnExpression_ind'; simpl; intros Hfree.
  - apply negb_true_iff in Hfree. by rewrite eval_column_val_resolved.
  - done.
  - apply andb_true_iff in Hfree as [Hc Hk]. apply negb_true_iff in Hc.
    by rewrite eval_column_val_resolved, IHk.
  - apply andb_true_iff in Hfree as [Hv Hgs]. rewrite IHv by done. simpl.
    rewrite (mapM_result_same _ gs); [done|].
    apply forallb_Forall_true in Hgs. rewrite Forall_forall in IHgs, Hgs.
    apply Forall_forall; auto.
  - rewrite (mapM_result_same _ xs); [done|].
    apply forallb_Forall_true in Hfree. rewrite Forall_forall in IH, Hfree.
    apply Forall_forall; auto.
  - rewrite (mapM_result_same _ xs); [done|].
    apply forallb_Forall_true in Hfree. rewrite Forall_forall in IH, Hfree.
    apply Forall_forall; auto.
  - apply andb_true_iff in Hfree as [Hc Hxs].
    rewrite (mapM_result_same _ xs); [simpl; by rewrite IHc|].
    apply forallb_Forall_true in Hxs. rewrite Forall_forall in IH, Hxs.
    apply Forall_forall; auto.
  - apply andb_true_iff in Hfree as [Ht Hxs]. apply negb_true_iff in Ht.
    rewrite (mapM_result_same _ xs).
    + destruct t; [done | discriminate].
    + apply forallb_Forall_true in Hxs. rewrite Forall_forall in IH, Hxs.
      apply Forall_forall; auto.
Qed.

Lemma resolved_args s xs xs' :
  Forall (λ e, ∀ e', eval_expression s e = ok e' → placeholder_free e' = true) xs →
  mapM (eval_expression s) xs = ok xs' → forallb placeholder_free xs' = true.
Proof.
  intros IH H. apply mapM_result_inv in H. apply forallb_Forall_true.
  induction H as [|x y l l' Hx _ IHl]; [constructor|].
  apply Forall_cons in IH as [IHx IH]. constructor; auto.
Qed.

Lemma resolve_no_residual s e e' :
  eval_expression s e = ok e' → placeholder_free e' = true.
Proof.
  revert e'.
  induction e as [c|v|c k o IHk|v gs IHv IHgs|r xs IH|f t n xs IH|c xs IHc IH|t xs o IH]
    using ColumnExpression_ind'; simpl; intros e' H;
    repeat match goal with
    | H : _ ≫= _ = ok _ |- _ => apply bind_ok_inv in H as (? & ? & H)
    | H : mret _ = ok _ |- _ => inversion H; subst; clear H
    | H : eval_column_val _ _ = ok _ |- _ => apply eval_column_val_no_placeholder in H
    | H : mapM _ _ = ok _ |- _ => eapply resolved_args in H; [|eassumption]
    end; simpl;
    repeat match goal with
    | H : is_placeholder _ = false |- _ => rewrite H; clear H
    | H : forallb _ _ = true |- _ => rewrite H; clear H
    end; simpl; rewrite ?andb_true_r; auto.
Qed.

(** C2: when the substitution binds the scope token [P] to the relation
    [A], resolution rewrites the column [x] of [P] to the column [x] of
    [A]; and resolving a pointer resolves every constructor argument in
    turn, then the owning relation by the same lookup, and rebuilds the
    pointer with the optional flag it had, so that a pointer owned by [P]
    comes out owned by [A]. *)
Theorem resolve_column_and_pointer (s : gmap Token Relation) (P : Token) (A : Relation)
    (x : string) :
  s !! P = Some A →
  eval_expression s (ColumnReference (mkColumnRef (This P) x))
    = ok (ColumnReference (mkColumnRef (Joinable A) x))
  ∧ (∀ t args o,
       eval_expression s (PointerExpression t args o) =
         (args' ← mapM (eval_expression s) args;
          r ← _desugar_table s t;
          mret (PointerExpression (Joinable r) args' o)))
  ∧ (∀ t r args args' o,
       Forall2 (λ a a', eval_expression s a = ok a') args args' →
       _desugar_table s t = ok r →
       eval_expression s (PointerExpression t args o)
         = ok (PointerExpression (Joinable r) args' o))
  ∧ (∀ args args' o,
       Forall2 (λ a a', eval_expression s a = ok a') args args' →
       eval_expression s (PointerExpression (This P) args o)
         = ok (PointerExpression (Joinable A) args' o)).
Proof.
  intros Hbound.
  assert (_desugar_table s (This P) = ok A) as HP.
  { simpl. unfold _eval_substitution. by rewrite Hbound. }
  split_and!.
  - simpl. unfold eval_column_val. simpl. unfold _eval_substitution. by rewrite Hbound.
  - done.
  - intros t r args args' o Hargs Ht. simpl.
    rewrite (mapM_result_ok _ _ _ Hargs). simpl. by rewrite Ht.
  - intros args args' o Hargs. cbn [eval_expression].
    rewrite (mapM_result_ok _ _ _ Hargs). cbn [mbind result_bind]. by rewrite HP.
Qed.

Lemma resolve_column_and_pointer_witness :
  let s : gmap Token Relation := {[ "P" := 7 ]} in
  eval_expression s (ColumnReference (mkColumnRef (This "P") "x"))
    = ok (ColumnReference (mkColumnRef (Joinable 7) "x"))
  ∧ eval_expression s
      (PointerExpression (This "P") [ColumnReference (mkColumnRef (This "P") "k")] true)
    = ok (PointerExpression (Joinable 7)
            [ColumnReference (mkColumnRef (Joinable 7) "k")] true).
Proof.
  intros s.
  destruct (resolve_column_and_pointer s "P" 7 "x") as (Hcol & _ & _ & Hptr);
    [reflexivity|].
  split; [exact Hcol|].
  apply Hptr. repeat constructor.
Defined.

(** C9: resolution leaves an expression without placeholders as it is,
    whatever the substitution; and whatever resolution returns holds no
    placeholder, so that resolving it again changes nothing. *)
Theorem resolve_idempotent (s : gmap Token Relation) (e : ColumnExpression) :
  (placeholder_free e = true → eval_expression s e = ok e)
  ∧ (∀ e', eval_expression s e = ok e' →
       placeholder_free e' = true ∧ ∀ s', eval_expression s' e' = ok e').
Proof.
  split; [apply resolve_resolved|].
  intros e' H. apply resolve_no_residual in H. split; [done|].
  intros s'. by apply resolve_resolved.
Qed.

Lemma resolve_idempotent_witness :
  let e := PointerExpression (Joinable 7)
             [ColumnReference (mkColumnRef (Joinable 7) "k");
              ColumnIxExpression (mkColumnRef (Joinable 3) "v")
                (ColumnReference (mkColumnRef (Joinable 7) "k")) false] true in
  let s : gmap Token Relation := {[ "P" := 7 ]} in
  let e1 := ColumnReference (mkColumnRef (This "P") "x") in
  let e1' := ColumnReference (mkColumnRef (Joinable 7) "x") in
  eval_expression ∅ e = ok e
  ∧ placeholder_free e1' = true ∧ eval_expression ∅ e1' = ok e1'.
Proof.
  intros e s e1 e1'. split.
  - destruct (resolve_idempotent ∅ e) as [Hsame _]. apply Hsame. reflexivity.
  - destruct (resolve_idempotent s e1) as [_ Hres].
    destruct (Hres e1') as [Hfree Hagain]; [reflexivity|]. split; [exact Hfree|].
    apply Hagain.
Defined.

End SelfReference.

(** ** Inline calls and reducers *)

Section InlineCalls.
Import TableCallbackDesugaring.

Lemma arg_name_inj i j : arg_name i = arg_name j → i = j.
Proof.
  unfold arg_name. intros H. apply (inj (String.app "arg_")) in H.
  by apply (inj pretty) in H.
Qed.

Lemma arg_name_not_method i : arg_name i ≠ "method".
Proof. unfold arg_name. cbn [String.append]. discriminate. Qed.

Lemma dict_of_snoc {V} (items : list (string * V)) (kv : string * V) :
  dict_of (items ++ [kv]) = <[kv.1 := kv.2]> (dict_of items).
Proof. unfold dict_of. by rewrite foldl_app. Qed.

(** The dict of [eval_call]: one entry per argument, under its own name. *)
Lemma args_dict (rewritten : list ColumnExpression) :
  let args := dict_of (imap (λ index arg, (arg_name index, arg)) rewritten) in
  (∀ i, args !! arg_name i = rewritten !! i)
  ∧ (∀ key, is_Some (args !! key) → ∃ i, i < length rewritten ∧ key = arg_name i)
  ∧ size args = length rewritten.
Proof.
  induction rewritten as [|x l IH] using rev_ind; cbv zeta in *.
  - split_and!; [done| |done]. intros key [v Hv]. done.
  - destruct IH as (IHl & IHk & IHs).
    rewrite imap_app. simpl. rewrite dict_of_snoc. simpl.
    rewrite Nat.add_0_r.
    assert (dict_of (imap (λ index arg, (arg_name index, arg)) l)
              !! arg_name (length l) = None) as Hfresh.
    { rewrite IHl. apply lookup_ge_None. lia. }
    split_and!.
    + intros i. destruct (decide (i = length l)) as [->|Hne].
      * rewrite lookup_insert_eq. symmetry. by apply list_lookup_middle.
      * rewrite lookup_insert_ne by (intros H; apply arg_name_inj in H; done).
        rewrite IHl. destruct (decide (i < length l)).
        -- by rewrite lookup_app_l.
        -- rewrite !lookup_ge_None_2; [done| |lia]. rewrite length_app. simpl. lia.
    + intros key Hkey. rewrite length_app. simpl.
      destruct (decide (key = arg_name (length l))) as [->|Hne].
      * exists (length l). split; [lia|done].
      * rewrite lookup_insert_ne in Hkey by done.
        destruct (IHk key Hkey) as (i & Hi & ->). exists i. split; [lia|done].
    + rewrite map_size_insert_None by done. rewrite IHs, length_app. simpl. lia.
Qed.

Context {DType Operator : Type}.
Variable eval_type : ColumnExpression → DType.
Variable method_call_transformer : nat → DType → Operator.
Variable run : Operator → Relation → Relation.
Variable select : Relation → gmap string ColumnExpression → Relation.
Variable reduce : Relation → gmap string ColumnExpression → Relation.
Variable _joinable_to_group : Relation → Relation.

Local Abbreviation desugar_in :=
  (eval_expression eval_type method_call_transformer run select reduce _joinable_to_group).
Local Abbreviation callback_of := (callback select reduce).

(** C6: an inline call with [k] positional arguments is desugared by
    rewriting each argument, binding the rewritten arguments under the
    names [arg_0] to [arg_(k-1)], asking for a row transformer for [k]
    arguments and the type inferred for the call, building the input
    relation from the callee under [method] and those [k] named columns
    and nothing else, running the transformer on it, and returning the
    reference to the column [result] of its output. *)
Theorem eval_call_desugars (self : TableLike) (c : ColumnExpression)
    (xs : list ColumnExpression) :
  let expression := ColumnCallExpression c xs in
  let rewritten := map (desugar_in self) xs in
  ∃ input : gmap string ColumnExpression,
    desugar_in self expression =
      ColumnReference (mkColumnRef
        (Joinable (run (method_call_transformer (length xs) (eval_type expression))
                     (callback_of self input)))
        "result")
    ∧ input !! "method" = Some c
    ∧ (∀ i, input !! arg_name i = rewritten !! i)
    ∧ (∀ key, is_Some (input !! key) →
         key = "method" ∨ ∃ i, i < length xs ∧ key = arg_name i)
    ∧ size input = S (length xs).
Proof.
  intros expression rewritten.
  destruct (args_dict rewritten) as (Hl & Hk & Hs).
  set (args := dict_of (imap (λ index arg, (arg_name index, arg)) rewritten)) in *.
  assert (length rewritten = length xs) as Hlen by apply length_map.
  assert (args !! "method" = None) as Hfresh.
  { destruct (args !! "method") eqn:E; [|done].
    destruct (Hk "method") as (i & _ & Hi); [eauto|].
    symmetry in Hi. by apply arg_name_not_method in Hi. }
  exists (<["method" := c]> args). split_and!.
  - simpl. unfold eval_call. fold rewritten. fold args. by rewrite Hs, Hlen.
  - apply lookup_insert_eq.
  - intros i. rewrite lookup_insert_ne; [apply Hl|].
    intros H. symmetry in H. by apply arg_name_not_method in H.
  - intros key Hkey. destruct (decide (key = "method")) as [->|Hne]; [by left|].
    right. rewrite lookup_insert_ne in Hkey by done.
    rewrite <- Hlen. by apply Hk.
  - rewrite map_size_insert_None by done. by rewrite Hs, Hlen.
Qed.

(** C7: the aggregation flavor desugars the arguments of a reducer with
    the projection flavor set on the relation the group was made from,
    and rebuilds the reducer expression with the same reducer around the
    rewritten arguments; an inline call among the arguments is therefore
    compiled through [select] on that relation. *)
Theorem eval_reducer_pre_aggregation (table_like : Relation) (r : Reducer)
    (xs : list ColumnExpression) :
  let select_desugar := TableSelectDesugaring (_joinable_to_group table_like) in
  desugar_in (TableReduceDesugaring table_like) (ReducerExpression r xs) =
    ReducerExpression r (map (desugar_in select_desugar) xs)
  ∧ ∀ c ys,
      desugar_in (TableReduceDesugaring table_like)
        (ReducerExpression r [ColumnCallExpression c ys]) =
      ReducerExpression r
        [eval_call eval_type method_call_transformer run select reduce select_desugar
           (ColumnCallExpression c ys) c (map (desugar_in select_desugar) ys)]
      ∧ callback_of select_desugar = select (_joinable_to_group table_like).
Proof. done. Qed.

End InlineCalls.

Lemma eval_call_desugars_witness :
  let f := ColumnReference (mkColumnRef (Joinable 1) "f") in
  let xs := [ColumnReference (mkColumnRef (Joinable 1) "a");
             ColumnConstExpression (PyInt 2)] in
  ∃ input : gmap string ColumnExpression,
    TableCallbackDesugaring.eval_expression (λ _, ()) (λ k _, k) (λ op t, op + t)
      (λ t _, t) (λ t _, t) (λ g, g)
      (TableCallbackDesugaring.TableSelectDesugaring 1) (ColumnCallExpression f xs)
    = ColumnReference (mkColumnRef (Joinable 3) "result")
    ∧ input !! "arg_1" = Some (ColumnConstExpression (PyInt 2))
    ∧ size input = 3.
Proof.
  intros f xs.
  destruct (eval_call_desugars (λ _, ()) (λ k _, k) (λ op t, op + t)
              (λ t _, t) (λ t _, t) (λ g, g)
              (TableCallbackDesugaring.TableSelectDesugaring 1) f xs)
    as (input & Heq & _ & Hargs & _ & Hsize).
  exists input. split; [exact Heq|]. split; [exact (Hargs 1) | exact Hsize].
Defined.

(** ** Argument normalization *)

Section ArgumentNormalization.
Variable smart_name : ColumnExpression → option string.

Local Abbreviation add_arg := (add : _ → option string * Any → _).

Lemma for_each_app {S X} (body : S → X → result S) (s : S) (l1 l2 : list X) :
  for_each body s (l1 ++ l2) = for_each body s l1 ≫= λ s', for_each body s' l2.
Proof.
  revert s. induction l1 as [|x l1 IH]; simpl; intros s; [done|].
  destruct (body s x); simpl; auto.
Qed.

Lemma combine_args_kwargs_items args kwargs :
  combine_args_kwargs smart_name args kwargs
  = for_each add_arg ∅ (items smart_name args kwargs).
Proof. unfold combine_args_kwargs, items. by rewrite for_each_app. Qed.

Lemma add_outcome m name v :
  match add_arg m (name, v) with
  | ok m' =>
      is_Table v = false ∧ m !! name = None ∧ name ≠ Some "id"
      ∧ m' = <[name := wrap_const v]> m
  | raise e =>
      (is_Table v = true ∧ e = AssertionError 249)
      ∨ (is_Table v = false ∧ is_Some (m !! name) ∧ e = duplicate_error name)
      ∨ (is_Table v = false ∧ m !! name = None ∧ name = Some "id" ∧ e = reserved_error)
  end.
Proof.
  unfold add. destruct (is_Table v) eqn:Ht; [by left|].
  destruct (decide (is_Some (m !! name))) as [Hin|Hnot].
  { right. by left. }
  assert (m !! name = None) as Hnone.
  { destruct (m !! name) eqn:E; [|done]. exfalso. apply Hnot. eauto. }
  destruct (decide (name = Some "id")) as [Hid|Hid].
  { right. by right. }
  done.
Qed.

Lemma clean_from_nil m : clean_from m [].
Proof.
  split_and!; [constructor | constructor | by intros ?%elem_of_nil
              | by intros name ?%elem_of_nil].
Qed.

Lemma clean_from_cons m name v its :
  is_Table v = false → m !! name = None → name ≠ Some "id" →
  clean_from (<[name := wrap_const v]> m) its → clean_from m ((name, v) :: its).
Proof.
  intros Ht Hnone Hid (Hts & Hnd & Hids & Hfresh).
  assert (name ∉ its.*1) as Hnotin.
  { intros Hin. apply Hfresh in Hin. by rewrite lookup_insert_eq in Hin. }
  split_and!.
  - by constructor.
  - simpl. by constructor.
  - simpl. intros [?|?]%elem_of_cons; done.
  - simpl. intros name' [->|Hin]%elem_of_cons; [done|].
    specialize (Hfresh name' Hin).
    rewrite lookup_insert_ne in Hfresh; [done|]. by intros ->.
Qed.

Lemma for_each_add_outcome its : ∀ m,
  match for_each add_arg m its with
  | ok m' => clean_from m its ∧ m' = added m its
  | raise e =>
      ∃ before item after, its = before ++ item :: after ∧ clean_from m before
        ∧ ((is_Table item.2 = true ∧ e = AssertionError 249)
           ∨ (is_Table item.2 = false
              ∧ (is_Some (m !! item.1) ∨ item.1 ∈ (before.*1))
              ∧ e = duplicate_error item.1)
           ∨ (is_Table item.2 = false ∧ m !! item.1 = None ∧ (item.1 ∉ before.*1)
              ∧ item.1 = Some "id" ∧ e = reserved_error))
  end.
Proof.
  induction its as [|[name v] its IH]; intros m.
  { simpl. split; [apply clean_from_nil | done]. }
  cbn [for_each]. pose proof (add_outcome m name v) as Hadd.
  destruct (add_arg m (name, v)) as [m1|e]; cbn [mbind result_bind].
  - destruct Hadd as (Ht & Hnone & Hid & ->).
    specialize (IH (<[name := wrap_const v]> m)).
    destruct (for_each add_arg (<[name := wrap_const v]> m) its) as [m'|e].
    + destruct IH as [Hclean ->]. split; [by apply clean_from_cons | done].
    + destruct IH as (before & item & after & -> & Hclean & Hoff).
      exists ((name, v) :: before), item, after.
      split; [done|]. split; [by apply clean_from_cons|].
      destruct Hoff as [Hoff|[(Hti & Hdup & ->)|(Hti & Hnew & Hnotin & Hidi & ->)]].
      * by left.
      * right; left. split_and!; [done| |done].
        destruct (decide (item.1 = name)) as [Heq|Hne].
        -- right. simpl. rewrite Heq. left.
        -- destruct Hdup as [Hdup|Hdup].
           ++ left. by rewrite lookup_insert_ne in Hdup.
           ++ right. simpl. by right.
      * right; right.
        assert (item.1 ≠ name) as Hne.
        { intros Heq. rewrite Heq, lookup_insert_eq in Hnew. done. }
        rewrite lookup_insert_ne in Hnew by done.
        split_and!; [done|done| |done|done].
        simpl. intros [?|?]%elem_of_cons; done.
  - exists [], (name, v), its. split; [done|]. split; [apply clean_from_nil|].
    destruct Hadd as [?|[(?&?&?)|(?&?&?&?)]]; [by left| |].
    + right; left. split_and!; [done|by left|done].
    + right; right. split_and!; [done|done| |done|done]. by intros ?%elem_of_nil.
Qed.

Lemma added_lookup_other its : ∀ m name,
  name ∉ its.*1 → added m its !! name = m !! name.
Proof.
  induction its as [|[n v] its IH]; intros m name Hnotin; [done|].
  simpl in *. apply not_elem_of_cons in Hnotin as [Hne Hnotin].
  unfold added in *. simpl. rewrite IH by done. by rewrite lookup_insert_ne.
Qed.

Lemma added_lookup its : ∀ m name v,
  NoDup its.*1 → (name, v) ∈ its → added m its !! name = Some (wrap_const v).
Proof.
  induction its as [|[n w] its IH]; intros m name v Hnd Hin.
  { by apply elem_of_nil in Hin. }
  simpl in Hnd. apply NoDup_cons in Hnd as [Hnotin Hnd].
  apply elem_of_cons in Hin as [Heq|Hin].
  - inversion Heq; subst. unfold added. simpl.
    fold (added (<[n := wrap_const w]> m) its).
    rewrite added_lookup_other by done. apply lookup_insert_eq.
  - unfold added in *. simpl. by apply IH.
Qed.

Lemma added_dom its : ∀ m name,
  is_Some (added m its !! name) → is_Some (m !! name) ∨ name ∈ its.*1.
Proof.
  induction its as [|[n w] its IH]; intros m name Hin; [by left|].
  unfold added in *. simpl in *. apply IH in Hin as [Hin|Hin].
  - destruct (decide (n = name)) as [->|Hne]; [right; left|].
    left. by rewrite lookup_insert_ne in Hin.
  - right. by right.
Qed.

Lemma added_size its : ∀ m,
  NoDup its.*1 → (∀ name, name ∈ its.*1 → m !! name = None) →
  size (added m its) = size m + length its.
Proof.
  induction its as [|[n w] its IH]; intros m Hnd Hfresh; simpl.
  { unfold added. simpl. lia. }
  simpl in Hnd. apply NoDup_cons in Hnd as [Hnotin Hnd].
  unfold added in *. simpl. rewrite IH; [|done|].
  - rewrite map_size_insert_None; [lia|]. apply Hfresh. simpl. left.
  - intros name Hin. rewrite lookup_insert_ne by (by intros ->).
    apply Hfresh. simpl. by right.
Qed.

(** C3, as the code has it: [combine_args_kwargs] takes the positional
    arguments and then the keyword arguments in order and stops at the
    first one that offends: a value that is a table fails the assertion,
    a name already taken raises the duplicate-name error, otherwise the
    name [id] raises the reserved-name error.  It returns exactly when no
    value is a table, the effective names are distinct and none is [id],
    and the mapping returned has one entry per argument under its
    effective name, [n + m] in all, an expression as it is and any other
    value wrapped as a constant. *)
Theorem combine_args_kwargs_outcome (args : list ColumnExpression)
    (kwargs : list (string * Any)) :
  let its := items smart_name args kwargs in
  (no_offender its →
     ∃ m, combine_args_kwargs smart_name args kwargs = ok m
       ∧ size m = length args + length kwargs
       ∧ (∀ name v, (name, v) ∈ its → m !! name = Some (wrap_const v))
       ∧ (∀ name, is_Some (m !! name) → name ∈ its.*1))
  ∧ (∀ m, combine_args_kwargs smart_name args kwargs = ok m → no_offender its)
  ∧ (∀ e, combine_args_kwargs smart_name args kwargs = raise e →
       ∃ before item after, its = before ++ item :: after ∧ no_offender before
         ∧ ((is_Table item.2 = true ∧ e = AssertionError 249)
            ∨ (is_Table item.2 = false ∧ item.1 ∈ before.*1
               ∧ e = duplicate_error item.1)
            ∨ (is_Table item.2 = false ∧ (item.1 ∉ before.*1)
               ∧ item.1 = Some "id" ∧ e = reserved_error))).
Proof.
  intros its. rewrite combine_args_kwargs_items. fold its.
  pose proof (for_each_add_outcome its ∅) as Hout.
  assert (length its = length args + length kwargs) as Hlen.
  { unfold its, items. by rewrite length_app, !length_map. }
  split_and!.
  - intros (Hts & Hnd & Hid).
    destruct (for_each add_arg ∅ its) as [m|e].
    + destruct Hout as [_ ->]. exists (added ∅ its). split_and!.
      * done.
      * rewrite added_size; [|done|done]. rewrite map_size_empty. lia.
      * intros name v Hin. by apply added_lookup.
      * intros name Hin. apply added_dom in Hin as [[? Hin]|Hin]; [|done].
        by rewrite lookup_empty in Hin.
    + exfalso. destruct Hout as (before & item & after & Hits & _ & Hoff).
      rewrite Hits in Hts, Hnd, Hid.
      apply Forall_app in Hts as [_ Hts]. apply Forall_cons in Hts as [Ht _].
      rewrite fmap_app, fmap_cons in Hnd, Hid.
      apply NoDup_app in Hnd as (_ & Hdisj & _).
      destruct Hoff as [[Hti _]|[(_ & [[? Hin]|Hin] & _)|(_ & _ & _ & Hidi & _)]].
      * congruence.
      * by rewrite lookup_empty in Hin.
      * apply (Hdisj _ Hin). left.
      * apply Hid, elem_of_app. right. rewrite Hidi. left.
  - intros m Hm. rewrite Hm in Hout. destruct Hout as [(Hts & Hnd & Hid & _) _].
    by split_and!.
  - intros e He. rewrite He in Hout.
    destruct Hout as (before & item & after & Hits & (Hts & Hnd & Hid & _) & Hoff).
    exists before, item, after. split; [done|]. split; [by split_and!|].
    destruct Hoff as [?|[(Hti & [[? Hin]|Hin] & ->)|(Hti & _ & Hnotin & Hidi & ->)]].
    + by left.
    + by rewrite lookup_empty in Hin.
    + right; by left.
    + right; by right.
Qed.

End ArgumentNormalization.

Lemma combine_args_kwargs_outcome_witness :
  let args := [ColumnReference (mkColumnRef (Joinable 1) "x")] in
  let kwargs := [("y", Other (PyInt 5))] in
  (∃ m, combine_args_kwargs column_name args kwargs = ok m
     ∧ size m = 2
     ∧ m !! Some "y" = Some (ColumnConstExpression (PyInt 5)))
  ∧ ∃ before item after,
      items column_name args [("x", Other (PyInt 5))] = before ++ item :: after
      ∧ item.1 = Some "x".
Proof.
  intros args kwargs. split.
  - destruct (combine_args_kwargs_outcome column_name args kwargs)
      as (Hok & _ & _).
    destruct Hok as (m & Hm & Hsize & Hentry & _).
    { split_and!.
      + repeat constructor.
      + by apply (bool_decide_unpack _); vm_compute.
      + by apply (bool_decide_unpack _); vm_compute. }
    exists m. split; [exact Hm|]. split; [exact Hsize|].
    apply (Hentry (Some "y") (Other (PyInt 5))). right. left.
  - destruct (combine_args_kwargs_outcome column_name args [("x", Other (PyInt 5))])
      as (_ & _ & Hraise).
    destruct (Hraise (duplicate_error (Some "x"))) as (before & item & after & Hits & _ & Hoff);
      [by vm_compute|].
    exists before, item, after. split; [exact Hits|].
    destruct Hoff as [[_ He]|[(_ & _ & He)|(_ & _ & _ & He)]].
    + discriminate He.
    + unfold duplicate_error in He. injection He as He.
      apply (inj (String.app _)) in He. destruct item as [[n|] v]; simpl in *.
      * by rewrite He.
      * discriminate He.
    + discriminate He.
Defined.

(** C3, as stated, fails: a table given as a keyword value makes
    [combine_args_kwargs] fail an assertion although the names are
    distinct and none is [id]; and with the names [id], [x], [x] the
    reserved-name error is raised, not the duplicate-name error. *)
Lemma combine_args_kwargs_other_failures :
  let kwargs := [("t", Table 0)] in
  let col n := ColumnReference (mkColumnRef (Joinable 1) n) in
  NoDup (items column_name [] kwargs).*1
  ∧ (Some "id" ∉ (items column_name [] kwargs).*1)
  ∧ combine_args_kwargs column_name [] kwargs = raise (AssertionError 249)
  ∧ combine_args_kwargs column_name [col "id"; col "x"; col "x"] [] = raise reserved_error.
Proof.
  split_and!.
  - by apply (bool_decide_unpack _); vm_compute.
  - by apply (bool_decide_unpack _); vm_compute.
  - by vm_compute.
  - by vm_compute.
Qed.

(** ** The call wrapper *)

Section CallWrapper.
Context {R : Type}.
Variable arg_names : list string.
Variable substitution_param : list (Token * Literal).
Variable _substitution : Relation → gmap Token Any.
Variable resolve_and_forward :
  option Relation → gmap Token Any → list Any → list (string * Any) → result R.

Lemma dict_set_not_nil {V} (k : string) (v : V) d : dict_set k v d ≠ [].
Proof. destruct d as [|[k' v'] d]; simpl; [done|]. by case_decide. Qed.

Lemma dict_update_nil {V} (its : list (string * V)) : ∀ d,
  dict_update d its = [] ↔ d = [] ∧ its = [].
Proof.
  induction its as [|[k v] its IH]; intros d; unfold dict_update in *; simpl.
  - split; [intros Hd; by split | by intros [Hd _]].
  - rewrite IH. split; [|intros [_ Hnil]; discriminate Hnil].
    intros [Hset _]. by apply dict_set_not_nil in Hset.
Qed.

Lemma bind_arguments_nil args kwargs :
  bind_arguments arg_names args kwargs = [] ↔ zip arg_names args = [] ∧ kwargs = [].
Proof.
  unfold bind_arguments. rewrite dict_update_nil, dict_update_nil.
  split; [intros [[_ Hzip] Hkw]; by split | intros [Hzip Hkw]; by split_and!].
Qed.

(** The declared scope bindings, applied to [s] in order. *)
Lemma for_each_bind_scope named_args sp : ∀ s,
  Forall (λ kv, ∃ name arg, kv.2 = PyStr name ∧ dict_get name named_args = Some arg) sp →
  ∃ s', for_each (bind_scope named_args) s sp = ok s'
    ∧ (∀ key, key ∉ sp.*1 → s' !! key = s !! key)
    ∧ (NoDup sp.*1 → ∀ key name, (key, PyStr name) ∈ sp →
         s' !! key = dict_get name named_args).
Proof.
  induction sp as [|[key value] sp IH]; intros s Hsp.
  { exists s. split_and!; [done|done|]. by intros _ key name ?%elem_of_nil. }
  apply Forall_cons in Hsp as [(name & arg & Hval & Hget) Hsp].
  simpl in Hval. subst value. cbn [for_each bind_scope]. rewrite Hget.
  cbn [mbind result_bind].
  destruct (IH (<[key := arg]> s) Hsp) as (s' & Hs' & Hother & Hbound).
  exists s'. split_and!; [done| |].
  - intros key' Hnotin. simpl in Hnotin.
    apply not_elem_of_cons in Hnotin as [Hne Hnotin].
    rewrite Hother by done. by rewrite lookup_insert_ne.
  - intros Hnd key' name' Hin. simpl in Hnd. apply NoDup_cons in Hnd as [Hnotin Hnd].
    apply elem_of_cons in Hin as [Heq|Hin].
    + inversion Heq; subst. rewrite Hother by done.
      by rewrite lookup_insert_eq, Hget.
    + by apply Hbound.
Qed.

Lemma for_each_bind_scope_raises named_args sp : ∀ s e,
  for_each (bind_scope named_args) s sp = raise e →
  e = AssertionError 294 ∨ ∃ name, e = KeyError name.
Proof.
  induction sp as [|[key value] sp IH]; intros s e; simpl; [done|].
  destruct value as [| | |name|]; simpl; try (intros [= <-]; by left).
  destruct (dict_get name named_args); simpl; [by apply IH|].
  intros [= <-]. right. eauto.
Qed.

(** C4, as the code has it: the wrapper looks at the first bound
    argument only; when that argument exposes a rewriting context the
    call inherits the scope substitution active on it, otherwise it
    starts from the empty one; the scope bindings the operation declares
    are then applied on top: a declared token is bound to the named
    argument of the call, every other token keeps what was inherited. *)
Theorem wrapper_scope_first_argument (args : list Any) (kwargs : list (string * Any))
    (k0 : string) (first_arg : Any) (rest : list (string * Any)) :
  let named_args := bind_arguments arg_names args kwargs in
  let desugaring_context := match first_arg with Table r => Some r | _ => None end in
  let inherited : gmap Token Any :=
    match desugaring_context with Some r => _substitution r | None => ∅ end in
  named_args = (k0, first_arg) :: rest →
  NoDup substitution_param.*1 →
  Forall (λ kv, ∃ name arg, kv.2 = PyStr name ∧ dict_get name named_args = Some arg)
    substitution_param →
  ∃ this_substitution,
    wrapper_scope arg_names substitution_param _substitution args kwargs
      = ok (desugaring_context, this_substitution)
    ∧ (∀ key name, (key, PyStr name) ∈ substitution_param →
         this_substitution !! key = dict_get name named_args)
    ∧ (∀ key, key ∉ substitution_param.*1 →
         this_substitution !! key = inherited !! key).
Proof.
  intros named_args desugaring_context inherited Hnamed Hnd Hsp.
  unfold wrapper_scope. fold named_args. rewrite Hnamed. rewrite <- Hnamed.
  fold desugaring_context.
  assert (match desugaring_context with
          | Some r => _substitution r ∪ ∅
          | None => ∅
          end = inherited) as ->.
  { unfold inherited. destruct desugaring_context; [|done]. apply (right_id_L ∅ (∪)). }
  destruct (for_each_bind_scope named_args substitution_param inherited Hsp)
    as (s' & -> & Hother & Hbound).
  exists s'. split_and!; [done| |done]. by apply Hbound.
Qed.

(** C10: a call that binds no positional and no keyword argument fails
    the assertion of the wrapper, whatever the scope declarations, the
    rewriters and the wrapped operation would do; the bound arguments are
    empty in that case only; and when an argument is bound the wrapper
    does not fail that assertion. *)
Theorem wrapper_requires_bound_argument (args : list Any)
    (kwargs : list (string * Any)) :
  (zip arg_names args = [] → kwargs = [] →
     wrapper arg_names substitution_param _substitution resolve_and_forward args kwargs
       = raise (AssertionError 283))
  ∧ wrapper arg_names substitution_param _substitution resolve_and_forward [] []
      = raise (AssertionError 283)
  ∧ (bind_arguments arg_names args kwargs = [] ↔ zip arg_names args = [] ∧ kwargs = [])
  ∧ (bind_arguments arg_names args kwargs ≠ [] →
       wrapper_scope arg_names substitution_param _substitution args kwargs
         ≠ raise (AssertionError 283)).
Proof.
  assert (∀ a k, zip arg_names a = [] → k = [] →
            wrapper arg_names substitution_param _substitution resolve_and_forward a k
              = raise (AssertionError 283)) as Hfail.
  { intros a k Hzip Hk. unfold wrapper, wrapper_scope.
    assert (bind_arguments arg_names a k = []) as -> by by apply bind_arguments_nil.
    done. }
  split_and!.
  - apply Hfail.
  - apply Hfail; [|done]. by destruct arg_names.
  - apply bind_arguments_nil.
  - intros Hne. unfold wrapper_scope.
    destruct (bind_arguments arg_names args kwargs) as [|[k0 first_arg] rest] eqn:E; [done|].
    match goal with
    | |- context [for_each ?f ?s ?l] => destruct (for_each f s l) as [s'|e] eqn:Hloop
    end; [done|].
    apply for_each_bind_scope_raises in Hloop as [->|[name ->]]; simpl; congruence.
Qed.

End CallWrapper.

Lemma wrapper_scope_first_argument_witness :
  let arg_names := ["self"; "expression"] in
  let declared := [("this", PyStr "self")] in
  let active : Relation → gmap Token Any := λ _, {[ "left" := Table 9 ]} in
  let args := [Table 7; Expression (ColumnConstExpression (PyInt 1))] in
  ∃ this_substitution,
    wrapper_scope arg_names declared active args [] = ok (Some 7, this_substitution)
    ∧ this_substitution !! "this" = Some (Table 7)
    ∧ this_substitution !! "left" = Some (Table 9).
Proof.
  intros arg_names declared active args.
  destruct (wrapper_scope_first_argument arg_names declared active args []
              "self" (Table 7)
              [("expression", Expression (ColumnConstExpression (PyInt 1)))])
    as (s & Hs & Hbound & Hother).
  - reflexivity.
  - by apply (bool_decide_unpack _); vm_compute.
  - repeat constructor. exists "self", (Table 7). split; reflexivity.
  - exists s. split; [exact Hs|]. split.
    + apply (Hbound "this" "self"). left.
    + etrans; [apply (Hother "left")|reflexivity].
      by apply (bool_decide_unpack _); vm_compute.
Defined.

(** C4, as stated, fails: the second bound argument is the first one that
    exposes a rewriting context, with a binding active on it, and the
    wrapper neither takes it as its context nor inherits the binding. *)
Lemma wrapper_scope_ignores_later_context :
  let arg_names := ["value"; "other"] in
  let active : Relation → gmap Token Any := λ _, {[ "this" := Table 1 ]} in
  let args := [Other (PyInt 0); Table 7] in
  first_exposing_context (bind_arguments arg_names args []) = Some 7
  ∧ active 7 !! "this" = Some (Table 1)
  ∧ wrapper_scope arg_names [] active args [] = ok (None, ∅).
Proof. by vm_compute. Qed.

Lemma wrapper_requires_bound_argument_witness :
  wrapper (R := unit) ["self"] [("this", PyInt 0)] (λ _, ∅) (λ _ _ _ _, ok ()) [] []
    = raise (AssertionError 283)
  ∧ wrapper_scope ["self"] [("this", PyInt 0)] (λ _, ∅) [Table 1] []
    ≠ raise (AssertionError 283).
Proof.
  split.
  - apply (wrapper_requires_bound_argument ["self"] [("this", PyInt 0)] (λ _, ∅)
             (λ _ _ _ _, ok ()) [] []); reflexivity.
  - apply (wrapper_requires_bound_argument (R := unit) ["self"] [("this", PyInt 0)]
             (λ _, ∅) (λ _ _ _ _, ok ()) [Table 1] []).
    discriminate.
Defined.

(** * Further properties *)

(** ** Null-flooding, continued *)

Section NullFloodingMore.
Import TableReplacementWithNoneDesugaring.

Lemma flood_no_null_guard T e : has_null_guard (flood T e) = false.
Proof.
  induction e as [c|v|c k o IHk|v gs IHv IHgs|r xs IH|f t n xs IH|c xs IHc IH|t xs o IH]
    using ColumnExpression_ind'.
  - rewrite flood_column_val. unfold eval_column_val. by case_decide.
  - done.
  - by rewrite flood_ix.
  - rewrite flood_require, first_null_spec.
    destruct (existsb is_null_const (map (flood T) gs)) eqn:Hnull; simpl; [done|].
    rewrite Hnull, IHv. simpl. by apply existsb_map_false.
  - rewrite flood_reducer. simpl. by apply existsb_map_false.
  - rewrite flood_method_call. simpl. by apply existsb_map_false.
  - rewrite flood_call. simpl. rewrite IHc. by apply existsb_map_false.
  - rewrite flood_pointer. simpl. by apply existsb_map_false.
Qed.

(** X1: null-flooding a relation is idempotent: what it returns holds no
    [RequireExpression] with a guard that is a constant holding [None],
    and flooding the same relation again returns it unchanged. *)
Theorem flood_idempotent (T : TableRef) (e : ColumnExpression) :
  has_null_guard (flood T e) = false ∧ flood T (flood T e) = flood T e.
Proof.
  split; [apply flood_no_null_guard|].
  apply flood_unchanged; [apply flood_removes | apply flood_no_null_guard].
Qed.

Lemma null_stays_null T gs :
  existsb is_null_const gs = true → existsb is_null_const (map (flood T) gs) = true.
Proof.
  intros [g [Hin Hg]]%existsb_exists. apply existsb_exists.
  exists (flood T g). split; [by apply in_map|].
  destruct g as [| [] | | | | | |]; done.
Qed.

Lemma map_map_ext_Forall {A} (f g : A → A) (l : list A) :
  Forall (λ x, f x = g x) l → map f l = map g l.
Proof. induction 1; simpl; congruence. Qed.

(** X2: null-flooding two relations gives the same expression in either
    order. *)
Theorem flood_commutes (T1 T2 : TableRef) (e : ColumnExpression) :
  flood T1 (flood T2 e) = flood T2 (flood T1 e).
Proof.
  induction e as [c|v|c k o IHk|v gs IHv IHgs|r xs IH|f t n xs IH|c xs IHc IH|t xs o IH]
    using ColumnExpression_ind'.
  - rewrite !flood_column_val. unfold eval_column_val.
    destruct (decide (_table c = T2)) as [H2|H2], (decide (_table c = T1)) as [H1|H1];
      rewrite ?flood_const, ?flood_column_val; unfold eval_column_val; simpl;
      rewrite ?decide_True by done; rewrite ?decide_False by done; done.
  - done.
  - by rewrite !flood_ix, IHk.
  - assert (map (flood T1) (map (flood T2) gs) = map (flood T2) (map (flood T1) gs))
      as Hgs.
    { rewrite !map_map. by apply map_map_ext_Forall. }
    rewrite (flood_require T2), (flood_require T1), !first_null_spec.
    destruct (existsb is_null_const (map (flood T2) gs)) eqn:H2,
             (existsb is_null_const (map (flood T1) gs)) eqn:H1;
      rewrite ?flood_const, ?flood_require, ?first_null_spec.
    + done.
    + apply (null_stays_null T1) in H2. by rewrite <- Hgs, H2.
    + apply (null_stays_null T2) in H1. by rewrite Hgs, H1.
    + by rewrite Hgs, IHv.
  - rewrite !flood_reducer, !map_map. f_equal. by apply map_map_ext_Forall.
  - rewrite !flood_method_call, !map_map. f_equal. by apply map_map_ext_Forall.
  - rewrite !flood_call, !map_map, IHc. f_equal. by apply map_map_ext_Forall.
  - rewrite !flood_pointer, !map_map. f_equal. by apply map_map_ext_Forall.
Qed.

Lemma calls_unfold T e :
  calls T e = e ::
    match e with
    | ColumnReference _ | ColumnConstExpression _ => []
    | ColumnIxExpression _ k _ => calls T k
    | RequireExpression v gs => calls T v ++ concat (map (calls T) gs)
    | ReducerExpression _ xs => concat (map (calls T) xs)
    | MethodCallExpression _ _ _ xs => concat (map (calls T) xs)
    | ColumnCallExpression c xs => concat (map (calls T) xs) ++ calls T c
    | PointerExpression _ xs _ => concat (map (calls T) xs)
    end.
Proof.
  destruct e as [c|v|c k o|v gs|r xs|f t n xs|c xs|t xs o];
    try apply calls_require; unfold calls; simpl; unfold mbind, Logged_bind;
    try pose proof (mapM_Logged_snd (eval_expression T) xs) as Hm;
    repeat match goal with
    | |- context [mapM ?f ?x] => destruct (mapM f x)
    | |- context [eval_expression T ?x] => destruct (eval_expression T x)
    end; simpl in *; subst; by rewrite ?app_nil_r.
Qed.

Lemma concat_map_ext_Forall {A B} (f g : A → list B) (l : list A) :
  Forall (λ x, f x = g x) l → concat (map f l) = concat (map g l).
Proof. induction 1; simpl; congruence. Qed.

Lemma length_concat_map_Forall {A B} (f : A → list B) (n : A → nat) (l : list A) :
  Forall (λ x, length (f x) = n x) l → length (concat (map f l)) = sum_list (map n l).
Proof. induction 1; simpl; [done|]. rewrite length_app. congruence. Qed.

Lemma calls_independent T T' e : calls T e = calls T' e.
Proof.
  induction e as [c|v|c k o IHk|v gs IHv IHgs|r xs IH|f t n xs IH|c xs IHc IH|t xs o IH]
    using ColumnExpression_ind'; rewrite (calls_unfold T), (calls_unfold T'); f_equal.
  - done.
  - by rewrite IHv, (concat_map_ext_Forall _ _ gs IHgs).
  - by apply concat_map_ext_Forall.
  - by apply concat_map_ext_Forall.
  - by rewrite IHc, (concat_map_ext_Forall _ _ xs IH).
  - by apply concat_map_ext_Forall.
Qed.

Lemma calls_length T e : length (calls T e) = nodes e.
Proof.
  induction e as [c|v|c k o IHk|v gs IHv IHgs|r xs IH|f t n xs IH|c xs IHc IH|t xs o IH]
    using ColumnExpression_ind'; rewrite (calls_unfold T); simpl; f_equal.
  - done.
  - by rewrite length_app, IHv, (length_concat_map_Forall _ nodes gs IHgs).
  - by apply length_concat_map_Forall.
  - by apply length_concat_map_Forall.
  - rewrite length_app, IHc, (length_concat_map_Forall _ nodes xs IH). lia.
  - by apply length_concat_map_Forall.
Qed.

(** X3: the calls of [eval_expression] made while flooding do not depend
    on the relation that is flooded, and there is one call for each node
    of the expression, the bases of indexed lookups apart: no node is
    skipped because a [RequireExpression] collapses. *)
Theorem flood_calls_every_node (T T' : TableRef) (e : ColumnExpression) :
  calls T e = calls T' e ∧ length (calls T e) = nodes e.
Proof. split; [apply calls_independent | apply calls_length]. Qed.

(** X4: null-flooding never brings in a column reference: a relation
    that owns no reference of the expression owns none of the flooded
    expression. *)
Theorem flood_adds_no_reference (T T' : TableRef) (e : ColumnExpression) :
  references T' e = false → references T' (flood T e) = false.
Proof.
  induction e as [c|v|c k o IHk|v gs IHv IHgs|r xs IH|f t n xs IH|c xs IHc IH|t xs o IH]
    using ColumnExpression_ind'; simpl; intros Hr.
  - rewrite flood_column_val. unfold eval_column_val.
    destruct (decide (_table c = T)); [done|]. destruct c. exact Hr.
  - done.
  - apply orb_false_iff in Hr as [Hc Hk]. rewrite flood_ix. simpl.
    by rewrite Hc, IHk.
  - apply orb_false_iff in Hr as [Hv Hgs]. rewrite flood_require, first_null_spec.
    destruct (existsb is_null_const (map (flood T) gs)); [done|]. simpl.
    rewrite IHv by done. apply existsb_map_false.
    apply existsb_false_Forall in Hgs. rewrite Forall_forall in IHgs, Hgs.
    apply Forall_forall. auto.
  - rewrite flood_reducer. simpl. apply existsb_map_false.
    apply existsb_false_Forall in Hr. rewrite Forall_forall in IH, Hr.
    apply Forall_forall. auto.
  - rewrite flood_method_call. simpl. apply existsb_map_false.
    apply existsb_false_Forall in Hr. rewrite Forall_forall in IH, Hr.
    apply Forall_forall. auto.
  - apply orb_false_iff in Hr as [Hc Hxs]. rewrite flood_call. simpl.
    rewrite IHc by done. apply existsb_map_false.
    apply existsb_false_Forall in Hxs. rewrite Forall_forall in IH, Hxs.
    apply Forall_forall. auto.
  - rewrite flood_pointer. simpl. apply existsb_map_false.
    apply existsb_false_Forall in Hr. rewrite Forall_forall in IH, Hr.
    apply Forall_forall. auto.
Qed.

Lemma flood_adds_no_reference_witness :
  let e := RequireExpression (ColumnReference (mkColumnRef (Joinable 1) "x"))
             [ColumnIxExpression (mkColumnRef (Joinable 0) "v")
                (ColumnReference (mkColumnRef (Joinable 1) "k")) false] in
  references (Joinable 2) (flood (Joinable 1) e) = false.
Proof. intros e. apply (flood_adds_no_reference (Joinable 1) (Joinable 2) e). reflexivity. Defined.

End NullFloodingMore.

(** ** Self-reference resolution, continued *)

Section SelfReferenceMore.
Import ThisDesugaring.

Lemma bind_raise_inv {A B} (m : result A) (f : A → result B) (ex : Exception) :
  m ≫= f = raise ex → m = raise ex ∨ ∃ a, m = ok a ∧ f a = raise ex.
Proof. destruct m; simpl; intros H; [right; eauto | left; congruence]. Qed.


Lemma mapM_result_ext {A B} (f g : A → result B) (l : list A) :
  Forall (λ x, f x = g x) l → mapM f l = mapM g l.
Proof. induction 1 as [|x l Hx _ IH]; simpl; [done|]. by rewrite Hx, IH. Qed.



Lemma _desugar_table_agree s s' t :
  (∀ p, p ∈ token_of t → s !! p = s' !! p) → _desugar_table s t = _desugar_table s' t.
Proof.
  destruct t as [r|p]; simpl; [done|]. intros H. unfold _eval_substitution.
  rewrite (H p); [done|left].
Qed.

Lemma elem_of_concat_map {A B} (f : A → list B) (l : list A) (x : A) (y : B) :
  x ∈ l → y ∈ f x → y ∈ concat (map f l).
Proof.
  intros Hx Hy. apply list_elem_of_In, in_concat. exists (f x).
  split; [by apply in_map, list_elem_of_In | by apply list_elem_of_In].
Qed.





(** X6: resolution looks up only the scope tokens of the expression: two
    substitutions that agree on them give the same outcome, result or
    exception. *)
Theorem resolve_depends_on_own_tokens (s s' : gmap Token Relation) (e : ColumnExpression) :
  (∀ p, p ∈ placeholders e → s !! p = s' !! p) →
  eval_expression s e = eval_expression s' e.
Proof.
  assert (∀ xs, Forall (λ e, (∀ p, p ∈ placeholders e → s !! p = s' !! p) →
              eval_expression s e = eval_expression s' e) xs →
            (∀ p, p ∈ concat (map placeholders xs) → s !! p = s' !! p) →
            mapM (eval_expression s) xs = mapM (eval_expression s') xs) as Hargs.
  { intros xs IH Hagree. apply mapM_result_ext. rewrite Forall_forall in IH.
    apply Forall_forall. intros x Hx. apply IH; [done|].
    intros p Hp. apply Hagree. by apply (elem_of_concat_map _ _ x). }
  induction e as [c|v|c k o IHk|v gs IHv IHgs|r xs IH|f t n xs IH|c xs IHc IH|t xs o IH]
    using ColumnExpression_ind'; simpl; intros Hagree.
  - unfold eval_column_val. by rewrite (_desugar_table_agree s s').
  - done.
  - unfold eval_column_val. rewrite (_desugar_table_agree s s'), IHk; [done| |].
    + intros p Hp. apply Hagree, elem_of_app. by right.
    + intros p Hp. apply Hagree, elem_of_app. by left.
  - rewrite IHv, (Hargs gs); [done|done| |].
    + intros p Hp. apply Hagree, elem_of_app. by right.
    + intros p Hp. apply Hagree, elem_of_app. by left.
  - by rewrite (Hargs xs).
  - by rewrite (Hargs xs).
  - rewrite IHc, (Hargs xs); [done|done| |].
    + intros p Hp. apply Hagree, elem_of_app. by right.
    + intros p Hp. apply Hagree, elem_of_app. by left.
  - rewrite (Hargs xs), (_desugar_table_agree s s'); [done| |done|].
    + intros p Hp. apply Hagree, elem_of_app. by left.
    + intros p Hp. apply Hagree, elem_of_app. by right.
Qed.

Lemma resolve_depends_on_own_tokens_witness :
  let e := ColumnIxExpression (mkColumnRef (This "left") "v")
             (ColumnReference (mkColumnRef (This "left") "k")) true in
  eval_expression {[ "left" := 1 ]} e
  = eval_expression {[ "left" := 1; "right" := 2 ]} e.
Proof.
  intros e. apply (resolve_depends_on_own_tokens {[ "left" := 1 ]}
                     {[ "left" := 1; "right" := 2 ]} e).
  intros p Hp. simpl in Hp.
  assert (p = "left") as ->.
  { apply elem_of_cons in Hp as [->|Hp]; [done|].
    apply elem_of_cons in Hp as [->|Hp]; [done|]. by apply elem_of_nil in Hp. }
  reflexivity.
Defined.

End SelfReferenceMore.

(** ** Resolution followed by null-flooding *)

Section ResolveThenFlood.
Local Abbreviation resolve := ThisDesugaring.eval_expression.
Local Abbreviation flood := TableReplacementWithNoneDesugaring.flood.

Lemma resolve_keeps_null_const s x y :
  resolve s x = ok y → is_null_const x = is_null_const y.
Proof.
  destruct x; simpl; intros H;
    repeat match goal with
    | H : _ ≫= _ = ok _ |- _ => apply bind_ok_inv in H as (? & ? & H)
    end; by inversion H.
Qed.

Lemma Forall2_map_both {A B} (P : B → B → Prop) (f : A → B) (l k : list A) :
  Forall2 (λ x y, P (f x) (f y)) l k → Forall2 P (map f l) (map f k).
Proof. induction 1; simpl; by constructor. Qed.

Lemma existsb_Forall2 {A} (p : A → bool) (l k : list A) :
  Forall2 (λ x y, p x = p y) l k → existsb p l = existsb p k.
Proof. induction 1; simpl; congruence. Qed.

Lemma resolve_flooded_args s T xs xs' :
  Forall (λ e, ∀ e', resolve s e = ok e' → resolve s (flood T e) = ok (flood T e')) xs →
  mapM (resolve s) xs = ok xs' →
  Forall2 (λ x y, resolve s x = ok y) (map (flood T) xs) (map (flood T) xs').
Proof.
  intros IH H. apply mapM_result_inv in H. apply Forall2_map_both.
  induction H as [|x y l l' Hx _ IHl]; [constructor|].
  apply Forall_cons in IH as [IHx IH]. constructor; auto.
Qed.

(** X7: resolution and null-flooding compose: when the substitution binds
    no scope token to the relation [r], flooding [r] in an expression and
    then resolving it gives what resolving it and then flooding [r]
    gives. *)
Theorem resolve_then_flood (s : gmap Token Relation) (r : Relation)
    (e e' : ColumnExpression) :
  (∀ p, s !! p ≠ Some r) →
  resolve s e = ok e' →
  resolve s (flood (Joinable r) e) = ok (flood (Joinable r) e').
Proof.
  intros Hfresh. revert e'.
  induction e as [c|v|c k o IHk|v gs IHv IHgs|rd xs IH|f t n xs IH|c xs IHc IH|t xs o IH]
    using ColumnExpression_ind'; simpl; intros e' H.
  - apply bind_ok_inv in H as (c' & Hc & H). inversion H; subst; clear H.
    unfold ThisDesugaring.eval_column_val in Hc.
    apply bind_ok_inv in Hc as (r0 & Hr0 & Hc). inversion Hc; subst; clear Hc.
    rewrite !flood_column_val. unfold TableReplacementWithNoneDesugaring.eval_column_val.
    destruct c as [[r1|p] n]; simpl in *.
    + inversion Hr0; subst. by destruct (decide (Joinable r0 = Joinable r)).
    + unfold ThisDesugaring._eval_substitution in Hr0.
      destruct (s !! p) as [r1|] eqn:Hp; [|done]. inversion Hr0; subst.
      rewrite !decide_False; [|intros [= ->]; by apply (Hfresh p)].
      simpl. unfold ThisDesugaring.eval_column_val. simpl.
      unfold ThisDesugaring._eval_substitution. by rewrite Hp.
  - by inversion H.
  - apply bind_ok_inv in H as (c' & Hc & H). apply bind_ok_inv in H as (k' & Hk & H).
    inversion H; subst; clear H. rewrite !flood_ix. simpl.
    rewrite Hc. simpl. by rewrite (IHk _ Hk).
  - apply bind_ok_inv in H as (v' & Hv & H). apply bind_ok_inv in H as (gs' & Hgs & H).
    inversion H; subst; clear H.
    pose proof (resolve_flooded_args s (Joinable r) gs gs' IHgs Hgs) as Hflooded.
    rewrite !flood_require, !first_null_spec.
    rewrite (existsb_Forall2 is_null_const _ (map (flood (Joinable r)) gs')).
    + destruct (existsb is_null_const (map (flood (Joinable r)) gs')); [done|].
      simpl. rewrite (IHv _ Hv). simpl. by rewrite (mapM_result_ok _ _ _ Hflooded).
    + eapply Forall2_impl; [exact Hflooded|].
      intros x y Hxy. by apply (resolve_keeps_null_const s).
  - apply bind_ok_inv in H as (xs' & Hxs & H). inversion H; subst; clear H.
    rewrite !flood_reducer. simpl.
    by rewrite (mapM_result_ok _ _ _ (resolve_flooded_args s _ xs xs' IH Hxs)).
  - apply bind_ok_inv in H as (xs' & Hxs & H). inversion H; subst; clear H.
    rewrite !flood_method_call. simpl.
    by rewrite (mapM_result_ok _ _ _ (resolve_flooded_args s _ xs xs' IH Hxs)).
  - apply bind_ok_inv in H as (xs' & Hxs & H). apply bind_ok_inv in H as (c' & Hc & H).
    inversion H; subst; clear H. rewrite !flood_call. simpl.
    rewrite (mapM_result_ok _ _ _ (resolve_flooded_args s _ xs xs' IH Hxs)). simpl.
    by rewrite (IHc _ Hc).
  - apply bind_ok_inv in H as (xs' & Hxs & H). apply bind_ok_inv in H as (r0 & Hr0 & H).
    inversion H; subst; clear H. rewrite !flood_pointer. simpl.
    rewrite (mapM_result_ok _ _ _ (resolve_flooded_args s _ xs xs' IH Hxs)). simpl.
    by rewrite Hr0.
Qed.

Lemma resolve_then_flood_witness :
  let s : gmap Token Relation := {[ "this" := 1 ]} in
  let e := RequireExpression (ColumnReference (mkColumnRef (This "this") "x"))
             [ColumnReference (mkColumnRef (Joinable 2) "y")] in
  resolve s (flood (Joinable 2) e) = ok (ColumnConstExpression PyNone).
Proof.
  intros s e.
  apply (resolve_then_flood s 2 e
           (RequireExpression (ColumnReference (mkColumnRef (Joinable 1) "x"))
              [ColumnReference (mkColumnRef (Joinable 2) "y")])).
  - intros p Hp. unfold s in Hp. apply lookup_singleton_Some in Hp as [_ Hp].
    discriminate Hp.
  - reflexivity.
Defined.

End ResolveThenFlood.

(** ** Inline calls, continued *)

Section InlineCallsMore.
Import TableCallbackDesugaring.
Context {DType Operator : Type}.
Variable eval_type : ColumnExpression → DType.
Variable method_call_transformer : nat → DType → Operator.
Variable run : Operator → Relation → Relation.
Variable select : Relation → gmap string ColumnExpression → Relation.
Variable reduce : Relation → gmap string ColumnExpression → Relation.
Variable _joinable_to_group : Relation → Relation.

Local Abbreviation desugar_in :=
  (eval_expression eval_type method_call_transformer run select reduce _joinable_to_group).

Lemma desugar_leaves_no_call e : ∀ self, has_call (desugar_in self e) = false.
Proof.
  induction e as [c|v|c k o IHk|v gs IHv IHgs|r xs IH|f t n xs IH|c xs IHc IH|t xs o IH]
    using ColumnExpression_ind'; intros self; simpl; try done.
  - rewrite IHv. simpl. apply existsb_map_false.
    eapply Forall_impl; [exact IHgs|]. by intros x Hx.
  - destruct self; simpl; apply existsb_map_false;
      (eapply Forall_impl; [exact IH|]; by intros x Hx).
  - apply existsb_map_false. eapply Forall_impl; [exact IH|]. by intros x Hx.
  - apply existsb_map_false. eapply Forall_impl; [exact IH|]. by intros x Hx.
Qed.

Lemma desugar_call_free e : ∀ self, has_call e = false → desugar_in self e = e.
Proof.
  induction e as [c|v|c k o IHk|v gs IHv IHgs|r xs IH|f t n xs IH|c xs IHc IH|t xs o IH]
    using ColumnExpression_ind'; intros self; simpl; intros Hfree.
  - by destruct c.
  - done.
  - rewrite IHk by done. by destruct c.
  - apply orb_false_iff in Hfree as [Hv Hgs]. rewrite IHv by done.
    rewrite (map_id_Forall _ gs); [done|].
    apply existsb_false_Forall in Hgs. rewrite Forall_forall in IHgs, Hgs.
    apply Forall_forall. auto.
  - apply existsb_false_Forall in Hfree. rewrite Forall_forall in IH, Hfree.
    destruct self; (rewrite (map_id_Forall _ xs); [done|]); apply Forall_forall; auto.
  - rewrite (map_id_Forall _ xs); [done|].
    apply existsb_false_Forall in Hfree. rewrite Forall_forall in IH, Hfree.
    apply Forall_forall. auto.
  - done.
  - rewrite (map_id_Forall _ xs); [done|].
    apply existsb_false_Forall in Hfree. rewrite Forall_forall in IH, Hfree.
    apply Forall_forall. auto.
Qed.

(** X8: the callback desugarings compile every inline call away: in
    either flavor the rewritten expression holds no inline call, and
    desugaring it again, in either flavor, changes nothing. *)
Theorem desugar_compiles_all_calls (self self' : TableLike) (e : ColumnExpression) :
  has_call (desugar_in self e) = false
  ∧ desugar_in self' (desugar_in self e) = desugar_in self e.
Proof.
  split; [apply desugar_leaves_no_call|].
  apply desugar_call_free, desugar_leaves_no_call.
Qed.

(** X9: the callback desugarings return an expression without inline
    calls unchanged, reducers included: neither the row-transformer
    generator nor [select] nor [reduce] has a part in the result. *)
Theorem desugar_without_calls_unchanged (self : TableLike) (e : ColumnExpression) :
  has_call e = false → desugar_in self e = e.
Proof. apply desugar_call_free. Qed.

End InlineCallsMore.

Lemma desugar_without_calls_unchanged_witness :
  let e := ReducerExpression 3
             [ColumnIxExpression (mkColumnRef (Joinable 1) "v")
                (ColumnReference (mkColumnRef (Joinable 2) "k")) false] in
  TableCallbackDesugaring.eval_expression (λ _, ()) (λ k _, k) (λ op t, op + t)
    (λ t _, t) (λ t _, t) (λ g, g) (TableCallbackDesugaring.TableReduceDesugaring 5) e
  = e.
Proof.
  intros e.
  apply (desugar_without_calls_unchanged (λ _, ()) (λ k _, k) (λ op t, op + t)
           (λ t _, t) (λ t _, t) (λ g, g)).
  reflexivity.
Defined.

(** ** Relation substitution *)

Section RelationSubstitution.
Import TableSubstitutionDesugaring.

Lemma and_then_lookup first second T :
  and_then first second !! T =
  match first !! T with
  | Some r => Some (default r (second !! Joinable r))
  | None => second !! T
  end.
Proof.
  unfold and_then. rewrite lookup_union, lookup_fmap.
  destruct (first !! T) as [r|]; simpl.
  - by destruct (second !! T).
  - by destruct (second !! T).
Qed.

Lemma eval_column_val_and_then first second c :
  eval_column_val second (eval_column_val first c)
  = eval_column_val (and_then first second) c.
Proof.
  unfold eval_column_val. rewrite and_then_lookup. destruct c as [T n]; simpl.
  destruct (first !! T) as [r|]; simpl.
  - by destruct (second !! Joinable r).
  - by destruct (second !! T).
Qed.

(** X10: relation substitutions compose: substituting by [first] and
    then by [second] is substituting once by the mapping that sends a
    relation where the two send it in turn. *)
Theorem table_substitution_composes (first second : gmap TableRef Relation)
    (e : ColumnExpression) :
  eval_expression second (eval_expression first e)
  = eval_expression (and_then first second) e.
Proof.
  induction e as [c|v|c k o IHk|v gs IHv IHgs|r xs IH|f t n xs IH|c xs IHc IH|t xs o IH]
    using ColumnExpression_ind'; simpl;
    rewrite ?eval_column_val_and_then, ?map_map; try congruence;
    rewrite ?IHv, ?IHc; f_equal; by apply map_map_ext_Forall.
Qed.

Lemma eval_column_val_miss m c :
  m !! _table c = None → eval_column_val m c = c.
Proof. unfold eval_column_val. intros ->. by destruct c. Qed.

(** The relation substitution binds no owner of a column reference of [e]. *)
Lemma table_substitution_miss m e :
  (∀ T, references T e = true → m !! T = None) → eval_expression m e = e.
Proof.
  assert (∀ xs, Forall (λ e, (∀ T, references T e = true → m !! T = None) →
              eval_expression m e = e) xs →
            (∀ T, existsb (references T) xs = true → m !! T = None) →
            map (eval_expression m) xs = xs) as Hargs.
  { intros xs IH Hmiss. apply map_id_Forall. rewrite Forall_forall in IH.
    apply Forall_forall. intros x Hx. apply IH; [done|]. intros T HT.
    apply Hmiss, existsb_exists. exists x. split; [by apply list_elem_of_In|done]. }
  induction e as [c|v|c k o IHk|v gs IHv IHgs|r xs IH|f t n xs IH|c xs IHc IH|t xs o IH]
    using ColumnExpression_ind'; simpl; intros Hmiss.
  - rewrite eval_column_val_miss; [done|]. apply Hmiss. by apply bool_decide_eq_true.
  - done.
  - rewrite eval_column_val_miss, IHk; [done| |].
    + intros T HT. apply Hmiss. rewrite HT. apply orb_true_r.
    + apply Hmiss. apply orb_true_iff. left. by apply bool_decide_eq_true.
  - rewrite IHv, (Hargs gs); [done|done| |].
    + intros T HT. apply Hmiss. rewrite HT. apply orb_true_r.
    + intros T HT. apply Hmiss. by rewrite HT.
  - by rewrite (Hargs xs).
  - by rewrite (Hargs xs).
  - rewrite IHc, (Hargs xs); [done|done| |].
    + intros T HT. apply Hmiss. rewrite HT. apply orb_true_r.
    + intros T HT. apply Hmiss. by rewrite HT.
  - by rewrite (Hargs xs).
Qed.

(** X11: a relation substitution leaves an expression unchanged when it
    binds none of the relations that own a column reference of the
    expression; the empty substitution leaves every expression
    unchanged. *)
Theorem table_substitution_unchanged (m : gmap TableRef Relation) (e : ColumnExpression) :
  ((∀ T, references T e = true → m !! T = None) → eval_expression m e = e)
  ∧ eval_expression ∅ e = e.
Proof.
  split; [apply table_substitution_miss|].
  apply table_substitution_miss. intros T _. apply lookup_empty.
Qed.

Lemma table_substitution_unchanged_witness :
  let m : gmap TableRef Relation := {[ Joinable 1 := 2 ]} in
  let e := ColumnIxExpression (mkColumnRef (Joinable 3) "v")
             (ColumnReference (mkColumnRef (This "this") "k")) false in
  eval_expression m e = e.
Proof.
  intros m e. destruct (table_substitution_unchanged m e) as [Hmiss _].
  apply Hmiss. intros T HT. unfold m. apply lookup_singleton_None.
  intros <-. discriminate HT.
Defined.

(** X12: after a relation substitution no column reference is left that
    is owned by a relation the substitution maps away, bases of indexed
    lookups included, provided the substitution maps nothing onto that
    relation. *)
Theorem table_substitution_moves_references (m : gmap TableRef Relation) (T : TableRef)
    (e : ColumnExpression) :
  is_Some (m !! T) → (∀ T' r, m !! T' = Some r → Joinable r ≠ T) →
  references T (eval_expression m e) = false.
Proof.
  intros [r0 Hr0] Himg.
  assert (∀ c, bool_decide (_table (eval_column_val m c) = T) = false) as Hcol.
  { intros [T' n]. unfold eval_column_val. simpl. apply bool_decide_eq_false.
    destruct (m !! T') as [r|] eqn:E; simpl.
    - by apply (Himg T').
    - intros ->. congruence. }
  induction e as [c|v|c k o IHk|v gs IHv IHgs|r xs IH|f t n xs IH|c xs IHc IH|t xs o IH]
    using ColumnExpression_ind'; simpl;
    rewrite ?Hcol, ?IHk, ?IHv, ?IHc; simpl; try done; by apply existsb_map_false.
Qed.

Lemma table_substitution_moves_references_witness :
  let m : gmap TableRef Relation := {[ Joinable 1 := 2 ]} in
  let e := ColumnIxExpression (mkColumnRef (Joinable 1) "v")
             (ColumnReference (mkColumnRef (Joinable 1) "k")) false in
  references (Joinable 1) (eval_expression m e) = false.
Proof.
  intros m e. apply (table_substitution_moves_references m (Joinable 1) e).
  - exists 2. reflexivity.
  - intros T' r Hm. unfold m in Hm. apply lookup_singleton_Some in Hm as [_ <-].
    discriminate.
Defined.

End RelationSubstitution.

(** ** The call wrapper, continued *)

Section CallWrapperMore.
Variable arg_names : list string.
Variable substitution_param : list (Token * Literal).
Variable _substitution : Relation → gmap Token Any.

Lemma dict_get_set {V} (k k' : string) (v : V) d :
  dict_get k' (dict_set k v d) = if decide (k' = k) then Some v else dict_get k' d.
Proof.
  induction d as [|[k0 v0] d IH]; simpl.
  - by destruct (decide (k' = k)).
  - destruct (decide (k = k0)) as [->|Hne]; simpl.
    + by destruct (decide (k' = k0)).
    + rewrite IH. destruct (decide (k' = k0)) as [->|?]; [|done].
      by rewrite decide_False by done.
Qed.

Lemma dict_get_app {V} (k : string) (d1 d2 : list (string * V)) :
  dict_get k (d1 ++ d2) =
  match dict_get k d1 with Some v => Some v | None => dict_get k d2 end.
Proof.
  induction d1 as [|[k0 v0] d1 IH]; simpl; [done|]. by destruct (decide (k = k0)).
Qed.

(** Reading a dict after an update: the last item given for the key, and
    what the dict held when no item is given for it. *)
Lemma dict_get_update {V} (k : string) (its : list (string * V)) : ∀ d,
  dict_get k (dict_update d its) =
  match dict_get k (reverse its) with Some v => Some v | None => dict_get k d end.
Proof.
  induction its as [|[k0 v0] its IH]; intros d; [done|].
  unfold dict_update in *. simpl. rewrite IH, reverse_cons, dict_get_app, dict_get_set.
  simpl. destruct (dict_get k (reverse its)); [done|]. by destruct (decide (k = k0)).
Qed.

Lemma dict_get_NoDup {V} (k : string) (v : V) (d : list (string * V)) :
  NoDup d.*1 → (k, v) ∈ d → dict_get k d = Some v.
Proof.
  induction d as [|[k0 v0] d IH]; simpl; intros Hnd Hin.
  { by apply elem_of_nil in Hin. }
  apply NoDup_cons in Hnd as [Hnotin Hnd].
  apply elem_of_cons in Hin as [[= -> ->]|Hin].
  - by rewrite decide_True.
  - rewrite decide_False; [by apply IH|].
    intros ->. apply Hnotin. apply list_elem_of_fmap. by exists (k0, v).
Qed.

Lemma bind_arguments_get (args : list Any) (kwargs : list (string * Any)) (name : string) :
  dict_get name (bind_arguments arg_names args kwargs) =
    match dict_get name (reverse kwargs) with
    | Some v => Some v
    | None => dict_get name (reverse (zip arg_names args))
    end.
Proof.
  unfold bind_arguments. rewrite !dict_get_update. simpl.
  by destruct (dict_get name (reverse (zip arg_names args))).
Qed.

(** X13: reading the bound arguments by name gives the value passed by
    keyword when the name is a keyword of the call, and otherwise the
    positional value bound to that parameter name, the last one when a
    name is given twice; in particular a keyword of an ordinary call,
    where no keyword is repeated, is bound to its own value. *)
Theorem bind_arguments_lookup (args : list Any) (kwargs : list (string * Any))
    (name : string) :
  dict_get name (bind_arguments arg_names args kwargs) =
    match dict_get name (reverse kwargs) with
    | Some v => Some v
    | None => dict_get name (reverse (zip arg_names args))
    end
  ∧ ∀ v, NoDup kwargs.*1 → (name, v) ∈ kwargs →
      dict_get name (bind_arguments arg_names args kwargs) = Some v.
Proof.
  split; [apply bind_arguments_get|]. intros v Hnd Hin. rewrite bind_arguments_get.
  rewrite (dict_get_NoDup name v (reverse kwargs)); [done| |].
  - by rewrite fmap_reverse, reverse_Permutation.
  - by apply elem_of_reverse.
Qed.

Lemma dict_set_head {V} (k k0 : string) (v v0 : V) d :
  ∃ v' d', dict_set k v ((k0, v0) :: d) = (k0, v') :: d'.
Proof. simpl. destruct (decide (k = k0)) as [->|?]; eauto. Qed.

Lemma dict_update_head {V} (its : list (string * V)) : ∀ (k0 : string) (v0 : V) d,
  ∃ v' d', dict_update ((k0, v0) :: d) its = (k0, v') :: d'.
Proof.
  induction its as [|[k v] its IH]; intros k0 v0 d; [by eexists _, _|].
  unfold dict_update in *. simpl.
  destruct (decide (k = k0)) as [->|?]; apply IH.
Qed.

(** X14: when the operation declares a parameter name and the call has a
    positional argument, the first bound argument, the one the wrapper
    tests for a rewriting context, is bound to the first declared name;
    its value is the keyword value when the call also passes that name by
    keyword, and the first positional argument otherwise (the declared
    names being distinct). *)
Theorem bind_arguments_first (n : string) (ns : list string) (a : Any)
    (rest : list Any) (kwargs : list (string * Any)) :
  arg_names = n :: ns →
  ∃ v tail,
    bind_arguments arg_names (a :: rest) kwargs = (n, v) :: tail
    ∧ Some v = match dict_get n (reverse kwargs) with
               | Some w => Some w
               | None => dict_get n (reverse (zip arg_names (a :: rest)))
               end
    ∧ (n ∉ ns → n ∉ kwargs.*1 → v = a).
Proof.
  intros Hnames.
  assert (∃ v tail, bind_arguments arg_names (a :: rest) kwargs = (n, v) :: tail)
    as (v & tail & Hbind).
  { unfold bind_arguments. rewrite Hnames. simpl.
    unfold dict_update at 2. simpl.
    destruct (dict_update_head (zip ns rest) n a []) as (v1 & d1 & H1).
    unfold dict_update in H1 at 1. rewrite H1. apply dict_update_head. }
  assert (Some v = match dict_get n (reverse kwargs) with
                   | Some w => Some w
                   | None => dict_get n (reverse (zip arg_names (a :: rest)))
                   end) as Hv.
  { rewrite <- bind_arguments_get, Hbind. simpl. by rewrite decide_True. }
  exists v, tail. split_and!; [done|done|].
  intros Hns Hkw. rewrite Hnames in Hv. simpl in Hv.
  assert (∀ (d : list (string * Any)), n ∉ d.*1 → dict_get n d = None) as Hnone.
  { intros d. induction d as [|[k0 v0] d IH]; simpl; [done|].
    intros [Hne Hd]%not_elem_of_cons. rewrite decide_False by done. by apply IH. }
  rewrite Hnone in Hv by (by rewrite fmap_reverse, elem_of_reverse).
  rewrite reverse_cons, dict_get_app, Hnone in Hv.
  - simpl in Hv. rewrite decide_True in Hv by done. congruence.
  - rewrite fmap_reverse, elem_of_reverse. intros Hin. apply Hns.
    apply list_elem_of_fmap in Hin as ([k x] & -> & Hin). simpl.
    apply elem_of_zip_l in Hin. done.
Qed.

Lemma zip_take_length {A B} (l : list A) : ∀ k : list B,
  zip l (take (length l) k) = zip l k.
Proof. induction l as [|x l IH]; intros [|y k]; simpl; [done..|]. by rewrite IH. Qed.

(** X15: positional arguments beyond the declared parameter names take no
    part in the rewriting context or in the scope of the call: the
    wrapper finds the same context and the same substitution, or fails
    the same way, without them. *)
Theorem wrapper_scope_ignores_surplus (args : list Any) (kwargs : list (string * Any)) :
  wrapper_scope arg_names substitution_param _substitution args kwargs
  = wrapper_scope arg_names substitution_param _substitution
      (take (length arg_names) args) kwargs.
Proof. unfold wrapper_scope, bind_arguments. by rewrite zip_take_length. Qed.

Lemma for_each_bind_scope_ok_inv named_args sp : ∀ s s',
  for_each (bind_scope named_args) s sp = ok s' →
  Forall (λ kv, ∃ name arg, kv.2 = PyStr name ∧ dict_get name named_args = Some arg) sp.
Proof.
  induction sp as [|[key value] sp IH]; intros s s' H; [constructor|].
  simpl in H. apply bind_ok_inv in H as (s1 & H1 & H).
  destruct value as [| | |name|]; try discriminate H1.
  destruct (dict_get name named_args) as [arg|] eqn:E; [|discriminate H1].
  constructor; [by exists name, arg | by apply (IH s1 s')].
Qed.

Lemma for_each_bind_scope_raise_inv named_args sp : ∀ s e,
  for_each (bind_scope named_args) s sp = raise e →
  (e = AssertionError 294 ∧ ∃ key v, (key, v) ∈ sp ∧ ∀ name, v ≠ PyStr name)
  ∨ (∃ key name, e = KeyError name ∧ (key, PyStr name) ∈ sp
       ∧ dict_get name named_args = None).
Proof.
  induction sp as [|[key value] sp IH]; intros s e H; [done|].
  simpl in H. apply bind_raise_inv in H as [H|(s1 & _ & H)].
  - destruct value as [| | |name|]; simpl in H;
      try (injection H as <-; left; split; [done|]; eexists key, _;
           split; [left|done]).
    destruct (dict_get name named_args) as [arg|] eqn:E; [done|].
    injection H as <-. right. exists key, name. split_and!; [done|left|done].
  - destruct (IH _ _ H) as [(-> & k & v & Hin & Hv)|(k & name & -> & Hin & Hget)].
    + left. split; [done|]. exists k, v. split; [by right|done].
    + right. exists k, name. split_and!; [done|by right|done].
Qed.

(** X16: the wrapper fails before resolving any argument in three cases
    only: no argument is bound (the assertion of line 283), a declared
    scope binding is not given as a string (the assertion of line 294),
    or a declared scope binding names an argument the call does not bind
    (the [KeyError] of that name); it finds a context and a scope
    substitution exactly when an argument is bound and every declared
    binding names a bound argument. *)
Theorem wrapper_scope_failures (args : list Any) (kwargs : list (string * Any)) :
  let named_args := bind_arguments arg_names args kwargs in
  (∀ e, wrapper_scope arg_names substitution_param _substitution args kwargs = raise e →
     (e = AssertionError 283 ∧ named_args = [])
     ∨ (e = AssertionError 294
        ∧ ∃ key v, (key, v) ∈ substitution_param ∧ ∀ name, v ≠ PyStr name)
     ∨ (∃ key name, e = KeyError name ∧ (key, PyStr name) ∈ substitution_param
          ∧ dict_get name named_args = None))
  ∧ ((∃ scope, wrapper_scope arg_names substitution_param _substitution args kwargs
                 = ok scope)
     ↔ named_args ≠ []
       ∧ Forall (λ kv, ∃ name arg, kv.2 = PyStr name
                         ∧ dict_get name named_args = Some arg) substitution_param).
Proof.
  intros named_args. unfold wrapper_scope. fold named_args.
  destruct named_args as [|[k0 first_arg] tail] eqn:Hnamed.
  { split.
    - intros e [= <-]. by left.
    - split; [by intros [scope H] | by intros [H _]]. }
  rewrite <- Hnamed.
  match goal with
  | |- context [for_each ?f ?s ?l] => destruct (for_each f s l) as [s'|e'] eqn:Hloop
  end; simpl.
  - split; [done|]. split; [|eauto]. intros _. split; [by rewrite Hnamed|].
    by apply for_each_bind_scope_ok_inv in Hloop.
  - split.
    + intros e [= <-]. right. by apply for_each_bind_scope_raise_inv in Hloop.
    + split; [by intros [scope H]|]. intros [_ Hdecl].
      match type of Hloop with
      | for_each _ ?s0 _ = _ =>
          destruct (for_each_bind_scope named_args substitution_param s0 Hdecl)
            as (s' & Hs' & _)
      end.
      rewrite Hs' in Hloop. done.
Qed.

End CallWrapperMore.

Lemma bind_arguments_lookup_witness :
  dict_get "other" (bind_arguments ["self"; "other"] [Table 1; Table 2]
                      [("other", Table 3); ("how", Other (PyStr "left"))])
  = Some (Table 3).
Proof.
  destruct (bind_arguments_lookup ["self"; "other"] [Table 1; Table 2]
              [("other", Table 3); ("how", Other (PyStr "left"))] "other")
    as [_ Hkw].
  apply Hkw; [by apply (bool_decide_unpack _); vm_compute | left].
Defined.


Lemma bind_arguments_first_witness :
  ∃ tail,
    bind_arguments ["self"; "other"] [Table 1; Table 2] [("how", Other (PyStr "left"))]
    = ("self", Table 1) :: tail.
Proof.
  destruct (bind_arguments_first ["self"; "other"] "self" ["other"] (Table 1) [Table 2]
              [("how", Other (PyStr "left"))]) as (v & tail & Hbind & _ & Hv);
    [reflexivity|].
  exists tail. rewrite Hbind.
  by rewrite Hv by (by apply (bool_decide_unpack _); vm_compute).
Defined.

Lemma wrapper_scope_failures_witness :
  wrapper_scope ["self"] [("this", PyStr "other")] (λ _, ∅) [Table 1] []
  = raise (KeyError "other")
  ∧ ∃ key, (key, PyStr "other") ∈ [("this", PyStr "other")].
Proof.
  split; [reflexivity|].
  destruct (wrapper_scope_failures ["self"] [("this", PyStr "other")] (λ _, ∅)
              [Table 1] []) as [Hraise _].
  destruct (Hraise (KeyError "other")) as [[He _]|[[He _]|(key & name & He & Hin & _)]];
    [reflexivity|discriminate He|discriminate He|].
  injection He as <-. by exists key.
Defined.

(** ** Argument normalization, continued *)

Section ArgumentOrder.
Variable smart_name : ColumnExpression → option string.





End ArgumentOrder.


(** ** Resolving the arguments of a call *)

Section DesugarThis.
Variable KEY_GUARD : string.
Variable iterate : Relation → list Argument.
Variable mapping_items : Relation → list (string * Argument).

Local Abbreviation desugar_args := (_desugar_this_args iterate).
Local Abbreviation desugar_kwargs := (_desugar_this_kwargs KEY_GUARD mapping_items).
Local Abbreviation is_guarded := (guarded KEY_GUARD).
Local Arguments _desugar_this_arg : simpl never.

Lemma bind_assoc {A B C} (m : result A) (f : A → result B) (g : B → result C) :
  (m ≫= f) ≫= g = m ≫= λ x, f x ≫= g.
Proof. by destruct m. Qed.

Lemma bind_ext {A B} (m : result A) (f g : A → result B) :
  (∀ x, f x = g x) → m ≫= f = m ≫= g.
Proof. intros H. destruct m; simpl; auto. Qed.

Lemma desugar_this_args_cons s (a : Argument) (l acc : list Argument) :
  for_each (λ ret arg,
      match arg with
      | ThisClass t iter_guard =>
          if iter_guard then
            evaled_table ← ThisDesugaring._eval_substitution s t;
            mret (ret ++ iterate evaled_table)
          else raise (AssertionError 210)
      | Given _ => arg' ← _desugar_this_arg s arg; mret (ret ++ [arg'])
      end) acc l
  = desugar_args s l ≫= λ r, mret (acc ++ r).
Proof.
  unfold _desugar_this_args. revert acc.
  induction l as [|x l IH]; intros acc; cbn [for_each].
  { unfold mret, result_ret. simpl. by rewrite app_nil_r. }
  destruct x as [x|t [|]].
  - destruct (_desugar_this_arg s (Given x)) as [x'|ex];
      cbn [mbind result_bind mret result_ret]; [|done].
    rewrite (IH (acc ++ [x'])), (IH ([] ++ [x'])), bind_assoc. apply bind_ext.
    intros r. cbn [mbind result_bind mret result_ret]. by rewrite <- app_assoc.
  - destruct (ThisDesugaring._eval_substitution s t) as [r0|ex];
      cbn [mbind result_bind mret result_ret]; [|done].
    rewrite (IH (acc ++ iterate r0)), (IH ([] ++ iterate r0)), bind_assoc.
    apply bind_ext.
    intros r. cbn [mbind result_bind mret result_ret]. by rewrite <- app_assoc.
  - done.
Qed.

Lemma desugar_this_args_app s (l1 l2 : list Argument) :
  desugar_args s (l1 ++ l2)
  = desugar_args s l1 ≫= λ r1, desugar_args s l2 ≫= λ r2, mret (r1 ++ r2).
Proof.
  unfold _desugar_this_args at 1. rewrite for_each_app.
  fold (_desugar_this_args iterate s l1). apply bind_ext. intros r1.
  apply (desugar_this_args_cons s (Given (Table 0))).
Qed.

(** X18: [_desugar_this_args] works argument by argument: the result for
    a list of arguments is the result for any front part followed by the
    result for the rest, and the first exception met from the left is the
    one raised. *)
Theorem desugar_this_args_concat (s : gmap Token Relation) (l1 l2 : list Argument) :
  desugar_args s (l1 ++ l2)
  = desugar_args s l1 ≫= λ r1, desugar_args s l2 ≫= λ r2, mret (r1 ++ r2).
Proof. apply desugar_this_args_app. Qed.

(** X19: when no argument is a placeholder class, [_desugar_this_args]
    resolves each argument in place: it returns as many values as it was
    given, an expression resolved and anything else as it was; a
    placeholder class that is not an [iter_guard] fails the assertion of
    line 210 once the arguments before it are resolved. *)
Theorem desugar_this_args_plain (s : gmap Token Relation) (args : list Argument) :
  (Forall (λ a, ∃ x, a = Given x) args →
     desugar_args s args = mapM (_desugar_this_arg s) args
     ∧ ∀ res, desugar_args s args = ok res → length res = length args)
  ∧ (∀ before t after res,
       args = before ++ ThisClass t false :: after →
       desugar_args s before = ok res →
       desugar_args s args = raise (AssertionError 210)).
Proof.
  split.
  - intros Hplain.
    assert (desugar_args s args = mapM (_desugar_this_arg s) args) as Heq.
    { induction Hplain as [|a l [x ->] _ IH]; [done|].
      change (Given x :: l) with ([Given x] ++ l).
      rewrite desugar_this_args_app, IH. simpl.
      unfold _desugar_this_args at 1. cbn [for_each].
      destruct (_desugar_this_arg s (Given x)) as [x'|ex]; simpl; [|done].
      by destruct (mapM (_desugar_this_arg s) l). }
    split; [done|]. rewrite Heq. intros res Hres.
    apply mapM_result_inv in Hres. symmetry. by eapply Forall2_length.
  - intros before t after res -> Hbefore.
    by rewrite desugar_this_args_app, Hbefore.
Qed.

Lemma dict_set_fresh {V} (k : string) (v : V) (d : list (string * V)) :
  k ∉ d.*1 → dict_set k v d = d ++ [(k, v)].
Proof.
  induction d as [|[k0 v0] d IH]; simpl; [done|].
  intros [Hne Hd]%not_elem_of_cons. rewrite decide_False by done. by rewrite IH.
Qed.

Lemma dict_update_fresh {V} (its : list (string * V)) : ∀ d,
  NoDup (d ++ its).*1 → dict_update d its = d ++ its.
Proof.
  induction its as [|[k v] its IH]; intros d Hnd.
  { by rewrite app_nil_r. }
  unfold dict_update in *. simpl.
  rewrite fmap_app, fmap_cons in Hnd. simpl in Hnd.
  rewrite dict_set_fresh.
  - rewrite IH; [by rewrite <- app_assoc|].
    rewrite <- app_assoc. simpl. by rewrite fmap_app, fmap_cons.
  - apply NoDup_app in Hnd as (_ & Hdisj & _). intros Hin.
    apply (Hdisj _ Hin). left.
Qed.

Lemma dict_update_app {V} (d its1 its2 : list (string * V)) :
  dict_update d (its1 ++ its2) = dict_update (dict_update d its1) its2.
Proof. unfold dict_update. apply foldl_app. Qed.

(** The loop of [_desugar_this_kwargs] over the guarded keywords. *)
Lemma desugar_this_kwargs_loop s (kwargs : list (string * Argument)) :
  ∀ (tables : list Relation) (new_kwargs : list (string * Argument)),
  Forall2 (λ kv r, ∃ t g, kv.2 = ThisClass t g ∧ s !! t = Some r)
    (List.filter is_guarded kwargs) tables →
  for_each (λ new_kwargs kv,
      if is_guarded kv then
        match kv.2 with
        | ThisClass t _ =>
            evaled_table ← ThisDesugaring._eval_substitution s t;
            mret (dict_update new_kwargs (mapping_items evaled_table))
        | Given _ => raise (AssertionError 232)
        end
      else mret new_kwargs) new_kwargs kwargs
  = ok (dict_update new_kwargs (concat (map mapping_items tables))).
Proof.
  induction kwargs as [|kv kwargs IH]; intros tables new_kwargs Htables; simpl in *.
  { by inversion Htables. }
  destruct (is_guarded kv) eqn:Hg.
  - inversion Htables as [|? r ? tables' (t & g & Hkv & Ht) Hrest]; subst.
    rewrite Hkv. unfold ThisDesugaring._eval_substitution. rewrite Ht. simpl.
    rewrite (IH tables') by done. by rewrite dict_update_app.
  - simpl. by apply IH.
Qed.

(** X20: [_desugar_this_kwargs] takes the keywords that are not guarded
    first, wherever the guarded ones stand among them, and then lets
    each guarded placeholder class, in order, add the items of the
    relation it is bound to, a later item replacing an earlier one of
    the same name; every value of the outcome is then resolved. *)
Theorem desugar_this_kwargs_spreads_last (s : gmap Token Relation)
    (kwargs : list (string * Argument)) (tables : list Relation) :
  Forall2 (λ kv r, ∃ t g, kv.2 = ThisClass t g ∧ s !! t = Some r)
    (List.filter is_guarded kwargs) tables →
  desugar_kwargs s kwargs
  = mapM (λ kv, arg ← _desugar_this_arg s kv.2; mret (kv.1, arg))
      (dict_update
         (dict_update [] (List.filter (λ kv, negb (is_guarded kv)) kwargs))
         (concat (map mapping_items tables))).
Proof.
  intros Htables. unfold _desugar_this_kwargs.
  by rewrite (desugar_this_kwargs_loop s kwargs tables).
Qed.

Lemma filter_all {A} (p : A → bool) (l : list A) :
  Forall (λ x, p x = true) l → List.filter p l = l.
Proof. induction 1 as [|x l Hx _ IH]; simpl; [done|]. by rewrite Hx, IH. Qed.

Lemma filter_none {A} (p : A → bool) (l : list A) :
  Forall (λ x, p x = false) l → List.filter p l = [].
Proof. induction 1 as [|x l Hx _ IH]; simpl; [done|]. by rewrite Hx. Qed.

(** X21: when no keyword is guarded, [_desugar_this_kwargs] keeps the
    keywords and their order and resolves each value: the names of the
    result are the names given, and each value is the resolution of the
    value given under that name. *)
Theorem desugar_this_kwargs_plain (s : gmap Token Relation)
    (kwargs res : list (string * Argument)) :
  Forall (λ kv, is_guarded kv = false) kwargs → NoDup kwargs.*1 →
  desugar_kwargs s kwargs = ok res →
  res.*1 = kwargs.*1
  ∧ Forall2 (λ kv r, r.1 = kv.1 ∧ _desugar_this_arg s kv.2 = ok r.2) kwargs res.
Proof.
  intros Hplain Hnd. unfold _desugar_this_kwargs.
  rewrite (desugar_this_kwargs_loop s kwargs []); [|by rewrite filter_none].
  simpl. rewrite filter_all.
  2:{ eapply Forall_impl; [exact Hplain|]. by intros kv ->. }
  rewrite dict_update_fresh by done. simpl.
  intros Hres. apply mapM_result_inv in Hres.
  assert (Forall2 (λ kv r, r.1 = kv.1 ∧ _desugar_this_arg s kv.2 = ok r.2) kwargs res)
    as Hall.
  { eapply Forall2_impl; [exact Hres|]. intros kv r H.
    apply bind_ok_inv in H as (arg & Harg & H). by inversion H. }
  split; [|done]. clear -Hall.
  induction Hall as [|kv r l l' [Hk _] _ IH]; [done|].
  rewrite !fmap_cons. by f_equal.
Qed.

(** X22: a guarded keyword whose value is not a placeholder class fails
    the assertion of line 232 when no guarded keyword stands before it,
    whatever the other keywords hold, also when one of them could not be
    resolved. *)
Theorem desugar_this_kwargs_guard_assertion (s : gmap Token Relation)
    (before after : list (string * Argument)) (k : string) (a : Any) :
  Forall (λ kv, is_guarded kv = false) before →
  is_guarded (k, Given a) = true →
  desugar_kwargs s (before ++ (k, Given a) :: after) = raise (AssertionError 232).
Proof.
  intros Hbefore Hk. unfold _desugar_this_kwargs. rewrite for_each_app.
  rewrite (desugar_this_kwargs_loop s before []); [|by rewrite filter_none].
  simpl. by rewrite Hk.
Qed.

End DesugarThis.

Lemma desugar_this_args_plain_witness :
  let it : Relation → list Argument := λ _, [] in
  _desugar_this_args it {[ "this" := 1 ]}
    [Given (Table 5); Given (Expression (ColumnReference (mkColumnRef (This "this") "x")))]
  = ok [Given (Table 5);
        Given (Expression (ColumnReference (mkColumnRef (Joinable 1) "x")))]
  ∧ _desugar_this_args it ∅ [Given (Table 5); ThisClass "this" false]
    = raise (AssertionError 210).
Proof.
  intros it. split.
  - destruct (desugar_this_args_plain it {[ "this" := 1 ]}
                [Given (Table 5);
                 Given (Expression (ColumnReference (mkColumnRef (This "this") "x")))])
      as [Hplain _].
    destruct Hplain as [Heq _]; [repeat constructor; eauto|].
    rewrite Heq. reflexivity.
  - destruct (desugar_this_args_plain it ∅ [Given (Table 5); ThisClass "this" false])
      as [_ Hassert].
    apply (Hassert [Given (Table 5)] "this" [] [Given (Table 5)]); reflexivity.
Defined.

Lemma desugar_this_kwargs_spreads_last_witness :
  let items : Relation → list (string * Argument) :=
    λ r, [("x", Given (Expression (ColumnReference (mkColumnRef (Joinable r) "x"))))] in
  _desugar_this_kwargs "**" items {[ "this" := 1 ]}
    [("**0", ThisClass "this" true); ("x", Given (Other (PyInt 7)))]
  = ok [("x", Given (Expression (ColumnReference (mkColumnRef (Joinable 1) "x"))))].
Proof.
  intros items.
  rewrite (desugar_this_kwargs_spreads_last "**" items {[ "this" := 1 ]}
             [("**0", ThisClass "this" true); ("x", Given (Other (PyInt 7)))] [1]).
  - reflexivity.
  - repeat constructor. exists "this", true. split; reflexivity.
Defined.

Lemma desugar_this_kwargs_plain_witness :
  let kwargs := [("a", Given (Expression (ColumnReference (mkColumnRef (This "this") "x"))));
                 ("b", Given (Table 3))] in
  let res := [("a", Given (Expression (ColumnReference (mkColumnRef (Joinable 1) "x"))));
              ("b", Given (Table 3))] in
  res.*1 = kwargs.*1.
Proof.
  intros kwargs res.
  apply (desugar_this_kwargs_plain "**" (λ _, []) {[ "this" := 1 ]} kwargs res).
  - repeat constructor.
  - by apply (bool_decide_unpack _); vm_compute.
  - reflexivity.
Defined.

Lemma desugar_this_kwargs_guard_assertion_witness :
  _desugar_this_kwargs "**" (λ _, []) ∅
    [("a", Given (Expression (ColumnReference (mkColumnRef (This "this") "x"))));
     ("**0", Given (Table 3))]
  = raise (AssertionError 232).
Proof.
  apply (desugar_this_kwargs_guard_assertion "**" (λ _, []) ∅
           [("a", Given (Expression (ColumnReference (mkColumnRef (This "this") "x"))))]
           [] "**0" (Table 3)).
  - repeat constructor.
  - reflexivity.
Defined.
